(** * A model of [cldfbench_jipa.py]: the JIPA inventory pipeline

    Python strings are sequences of Unicode code points; they are modelled
    as [list N].  Python exceptions (an [IndexError] from [text[0]] on an
    empty string, a [KeyError] from a dict lookup, a [TypeError] from
    [slug(None)]) are modelled by [None] in [option].

    The external libraries the code calls ([unicodedata.normalize("NFC", _)],
    [unidecode], [clldutils.misc.slug], the CLTS catalog) are parameters of
    the definitions, so every theorem holds for all of them; where a law of
    such a library is needed it is stated as a hypothesis. *)

From Stdlib Require Import Strings.String Strings.Ascii.
From Stdlib Require Import List Bool Arith NArith Lia.
Import ListNotations.
Open Scope N_scope.

(** ** Strings as code points *)

Definition str := list N.

(** String literals of the file: an ASCII [string] read as code points. *)
Definition u (s : String.string) : str :=
  map Ascii.N_of_ascii (String.list_ascii_of_string s).

Definition LPAR : N := 40.    (* ( *)
Definition RPAR : N := 41.    (* ) *)
Definition COMMA : N := 44.   (* , *)
Definition LBRACK : N := 91.  (* [ *)
Definition RBRACK : N := 93.  (* ] *)
Definition UNDERSCORE : N := 95.  (* _ *)
Definition LOWER_U : N := 117.    (* u *)

(** [text[-1]] on a non-empty string. *)
Definition last_char (text : str) : N := last text 0.

(** [text[1:-1]]: drop the first and the last code point (Python gives the
    empty string for a string of length at most 2). *)
Definition slice_inner (text : str) : str := removelast (tl text).

(** [text[0] == o and text[-1] == c], with the [IndexError] of [text[0]] on
    the empty string. *)
Definition bounded_by (o c : N) (text : str) : option bool :=
  match text with
  | [] => None
  | h :: _ => Some ((h =? o) && (last_char text =? c))
  end.

(** ** Grapheme Normalizer: [normalize_grapheme] *)

Section Normalizer.

(** [unicodedata.normalize("NFC", _)]. *)
Variable nfc : str -> str.

Definition normalize_grapheme (text : str) : option str :=
  let text := nfc text in
  match bounded_by LPAR RPAR text with
  | None => None
  | Some b1 =>
      let text := if b1 then slice_inner text else text in
      match bounded_by LBRACK RBRACK text with
      | None => None
      | Some b2 => Some (if b2 then slice_inner text else text)
      end
  end.

End Normalizer.

(** Laws of Unicode NFC that the proofs below use.  [nfc_low]: NFC changes
    no string whose code points are all below U+0300 (that range holds no
    combining mark, no decomposable and no composable character).
    [nfc_idem]: NFC is idempotent.  [nfc_inner]: the brackets [( ) [ ]] are
    stable code points (starters that never compose), so removing them from
    both ends of a string in NFC leaves a string in NFC. *)
Definition bracket (c : N) : bool :=
  (c =? LPAR) || (c =? RPAR) || (c =? LBRACK) || (c =? RBRACK).

Record nfc_laws (nfc : str -> str) : Prop := {
  nfc_low : forall s, forallb (fun c => c <? 768) s = true -> nfc s = s;
  nfc_idem : forall s, nfc (nfc s) = nfc s;
  nfc_inner : forall o m c, bracket o = true -> bracket c = true ->
    nfc (o :: m ++ [c]) = o :: m ++ [c] -> nfc m = m
}.

(** Evaluation instance of NFC: the identity.  It satisfies [nfc_laws] and
    agrees with NFC on every string already in NFC, in particular on every
    concrete string evaluated in this file (all below U+0300). *)
Definition nfc_eval (s : str) : str := s.

(** ** Identifier Encoder: [compute_id] *)

(** One hexadecimal digit, upper case, as [format(_, "X")] writes it. *)
Definition hex_digit (d : N) : N := if d <? 10 then 48 + d else 55 + d.

(** Digits of [n], least significant first; [fuel] bounds the length. *)
Fixpoint hex_rev (fuel : nat) (n : N) : str :=
  match fuel with
  | O => []
  | S f => if n =? 0 then [] else hex_digit (n mod 16) :: hex_rev f (n / 16)
  end.

(** [format(n, "X")]. *)
Definition hex_upper (n : N) : str :=
  if n =? 0 then [48] else rev (hex_rev (N.size_nat n) n).

(** [format(n, "04X")]: zero-padded to width 4. *)
Definition hex4 (n : N) : str :=
  repeat 48 (4 - length (hex_upper n)) ++ hex_upper n.

(** ["u{0:0{1}X}".format(ord(char), 4)]. *)
Definition code_token (c : N) : str := LOWER_U :: hex4 c.

(** [unicode_repr = "".join([... for char in text])]. *)
Definition unicode_repr (text : str) : str := concat (map code_token text).

Section Encoder.

(** [unidecode] and [clldutils.misc.slug]. *)
Variables unidecode slug : str -> str.

(** [compute_id(text) = "%s_%s" % (slug(unidecode(text)), unicode_repr)]. *)
Definition compute_id (text : str) : str :=
  slug (unidecode text) ++ UNDERSCORE :: unicode_repr text.

End Encoder.

(** ** Record Parser: the comma splitter [_splitter] of [read_raw_source] *)

(** [str.isspace()]; for a [str] pattern, [\s] matches the same code points. *)
Definition isspace (c : N) : bool :=
  ((9 <=? c) && (c <=? 13)) || ((28 <=? c) && (c <=? 32)) || (c =? 133)
  || (c =? 160) || (c =? 5760) || ((8192 <=? c) && (c <=? 8202))
  || (c =? 8232) || (c =? 8233) || (c =? 8239) || (c =? 8287) || (c =? 12288).

Fixpoint lstrip (s : str) : str :=
  match s with
  | [] => []
  | c :: s' => if isspace c then lstrip s' else s
  end.

(** [str.strip()]. *)
Definition strip (s : str) : str := rev (lstrip (rev (lstrip s))).

(** Does [[^()]*\)] match at the start of [s]?  It does exactly when the
    first parenthesis of [s] is a [)]. *)
Fixpoint close_ahead (s : str) : bool :=
  match s with
  | [] => false
  | c :: s' => if c =? RPAR then true else if c =? LPAR then false else close_ahead s'
  end.

(** Length of the run of whitespace at the start of [s]: what [\s*] takes
    greedily. *)
Fixpoint ws_len (s : str) : nat :=
  match s with
  | c :: s' => if isspace c then S (ws_len s') else O
  | [] => O
  end.

(** [\s*(?![^()]*\))] at the start of [s]: [\s*] backtracks from [k]
    whitespace code points down to none until the negative lookahead holds;
    [Some k] is the length it matched with, [None] a failure. *)
Fixpoint ws_not_close (k : nat) (s : str) : option nat :=
  if negb (close_ahead (skipn k s)) then Some k
  else match k with O => None | S k' => ws_not_close k' s end.

(** [re.split(",\s*(?![^()]*\))", text)], scanning left to right for the
    leftmost match: [cur] is the current piece, reversed, and [skip] the
    whitespace still consumed by the last match. *)
Fixpoint re_split_go (skip : nat) (cur : str) (s : str) : list str :=
  match s with
  | [] => [rev cur]
  | c :: s' =>
      match skip with
      | S k => re_split_go k cur s'
      | O =>
          if c =? COMMA then
            match ws_not_close (ws_len s') s' with
            | Some k => rev cur :: re_split_go k [] s'
            | None => re_split_go O (c :: cur) s'
            end
          else re_split_go O (c :: cur) s'
      end
  end.

Definition re_split_comma (text : str) : list str := re_split_go O [] text.

Definition nonempty (s : str) : bool :=
  match s with [] => false | _ => true end.

(** [_splitter]: [items = [item.strip() for item in re.split(...)]] and
    [[item for item in items if item]]. *)
Definition _splitter (text : str) : list str :=
  filter nonempty (map strip (re_split_comma text)).

(** ** Allophone Reducer (the first loop of [cmd_makecldf]) *)

(** [re.sub(r"\([^)]*\)", "", segment)], leftmost match first: [buf] holds,
    reversed, a pending match from an opening parenthesis; it is dropped at
    the next [)] and written out when the string ends without one (no match
    starts there, nor at a later position, as no [)] follows). *)
Fixpoint sub_parens_go (buf : option str) (s : str) : str :=
  match s, buf with
  | [], None => []
  | [], Some b => rev b
  | c :: s', None =>
      if c =? LPAR then sub_parens_go (Some [c]) s' else c :: sub_parens_go None s'
  | c :: s', Some b =>
      if c =? RPAR then sub_parens_go None s' else sub_parens_go (Some (c :: b)) s'
  end.

Definition sub_parens (s : str) : str := sub_parens_go None s.

(** [if segment[0] == "(" and segment[-1] == ")": ... else: re.sub(...)]. *)
Definition reduce_segment (segment : str) : option str :=
  match bounded_by LPAR RPAR segment with
  | None => None
  | Some true => Some segment
  | Some false => Some (sub_parens segment)
  end.

(** [all_segments]: every segment of [consonants + vowels], reduced. *)
Fixpoint reduce_all (l : list str) : option (list str) :=
  match l with
  | [] => Some []
  | s :: l' =>
      match reduce_segment s with
      | None => None
      | Some r => option_map (cons r) (reduce_all l')
      end
  end.

(** ** Segment Resolver (the second loop of [cmd_makecldf]) *)

(** [models.UnknownSound] or a sound with [str(sound)] and [sound.name]. *)
Inductive sound :=
| UnknownSound
| Sound (grapheme : str) (name : str).

(** The catalog: [clts_jipa.grapheme_map.get] and [clts.bipa[_]]. *)
Record catalog := {
  grapheme_map : str -> option str;
  bipa : str -> sound
}.

(** The tuple [(par_id, normalized, bipa_grapheme, desc)]. *)
Record param_tuple := {
  t_par_id : str;
  t_normalized : str;
  t_bipa : str;
  t_desc : str
}.

(** A row of [ValueTable]; [ID] is [str(counter)], kept as the counter. *)
Record value_row := {
  v_ID : nat;
  v_Language_ID : str;
  v_Marginal : bool;
  v_Parameter_ID : str;
  v_Value : str;
  v_Contribution_ID : str;
  v_Source : list str;
  v_Catalog : str
}.

(** A row of [ParameterTable]. *)
Record param_row := {
  p_ID : str;
  p_Name : str;
  p_BIPA : str;
  p_Description : str
}.

(** The dict returned by [read_raw_source]. *)
Record raw_record := {
  source : option str;
  language_name : option str;
  iso_code : option str;
  consonants : list str;
  vowels : list str
}.

(** The loop variables of [cmd_makecldf]. *)
Record run_state := {
  counter : nat;
  segments : list param_tuple;
  values : list value_row
}.

Definition init_state : run_state := {| counter := 1; segments := []; values := [] |}.

Fixpoint fold_opt {A B : Type} (f : A -> B -> option A) (a : A) (l : list B) : option A :=
  match l with
  | [] => Some a
  | b :: l' => match f a b with None => None | Some a' => fold_opt f a' l' end
  end.

Definition str_eqb (a b : str) : bool :=
  if list_eq_dec N.eq_dec a b then true else false.

Definition tuple_eqb (t1 t2 : param_tuple) : bool :=
  str_eqb (t_par_id t1) (t_par_id t2) && str_eqb (t_normalized t1) (t_normalized t2)
  && str_eqb (t_bipa t1) (t_bipa t2) && str_eqb (t_desc t1) (t_desc t2).

(** [set(segments)]: each distinct tuple once (a Python set has no fixed
    order; this one keeps the last occurrence of each tuple). *)
Fixpoint dedup (l : list param_tuple) : list param_tuple :=
  match l with
  | [] => []
  | t :: l' => if existsb (tuple_eqb t) l' then dedup l' else t :: dedup l'
  end.

Definition param_row_of (t : param_tuple) : param_row :=
  {| p_ID := t_par_id t; p_Name := t_normalized t; p_BIPA := t_bipa t;
     p_Description := t_desc t |}.

Section Pipeline.

Variable nfc : str -> str.
Variables unidecode slug : str -> str.
Variable cat : catalog.
(** [source_map[_]], built from [languages.csv]. *)
Variable source_map : str -> option str.

(** [sound = clts.bipa[grapheme_map.get(segment, grapheme_map.get(normalized, ""))]]
    and, on an [UnknownSound], [sound = clts.bipa[normalized]]. *)
Definition lookup_sound (segment normalized : str) : sound :=
  let key :=
    match grapheme_map cat segment with
    | Some k => k
    | None => match grapheme_map cat normalized with Some k => k | None => [] end
    end in
  match bipa cat key with
  | UnknownSound => bipa cat normalized
  | s => s
  end.

(** One segment of [all_segments]: [normalized], [sound] and the tuple. *)
Definition resolve_segment (segment : str) : option (sound * param_tuple) :=
  match normalize_grapheme nfc segment with
  | None => None
  | Some normalized =>
      let s := lookup_sound segment normalized in
      Some (s,
        match s with
        | UnknownSound =>
            {| t_par_id := u "UNK_" ++ compute_id unidecode slug normalized;
               t_normalized := normalized; t_bipa := []; t_desc := [] |}
        | Sound g n =>
            {| t_par_id := u "BIPA_" ++ compute_id unidecode slug normalized;
               t_normalized := normalized; t_bipa := g; t_desc := n |}
        end)
  end.

(** The body of [for segment in all_segments]. *)
Definition process_segment (lang : option str) (st : run_state) (segment : str)
  : option run_state :=
  match resolve_segment segment with
  | None => None
  | Some (_, t) =>
      match lang with
      | None => None
      | Some name =>
          let lang_key := slug name in
          match source_map lang_key with
          | None => None
          | Some src =>
              Some {| counter := S (counter st);
                      segments := segments st ++ [t];
                      values := values st ++
                        [{| v_ID := counter st; v_Language_ID := lang_key;
                            v_Marginal := false; v_Parameter_ID := t_par_id t;
                            v_Value := segment; v_Contribution_ID := lang_key;
                            v_Source := [src]; v_Catalog := u "jipa" |}] |}
          end
      end
  end.

(** The body of [for filename in source_files], on the parsed record. *)
Definition process_record (st : run_state) (r : raw_record) : option run_state :=
  match reduce_all (consonants r ++ vowels r) with
  | None => None
  | Some all_segments => fold_opt (process_segment (language_name r)) st all_segments
  end.

(** The value and parameter tables built by [cmd_makecldf]. *)
Definition make_cldf (records : list raw_record) : option (list value_row * list param_row) :=
  match fold_opt process_record init_state records with
  | None => None
  | Some st => Some (values st, map param_row_of (dedup (segments st)))
  end.

End Pipeline.

(** ** Record Parser: the line scanner of [read_raw_source] *)

Definition BOM : N := 65279.  (* U+FEFF *)
Definition HASH : N := 35.    (* # *)

(** [line.replace(BOM, empty string).strip()]: every U+FEFF removed, then
    surrounding whitespace. *)
Definition clean_line (line : str) : str :=
  strip (filter (fun c => negb (c =? BOM)) line).

(** [section == name]; [section] starts as [None], which equals no string. *)
Definition section_is (section : option str) (name : String.string) : bool :=
  match section with Some s => str_eqb s (u name) | None => false end.

(** The initial [data] dict. *)
Definition empty_record : raw_record := {|
  source := None; language_name := None; iso_code := None;
  consonants := []; vowels := []
|}.

Definition set_source (d : raw_record) (v : str) : raw_record := {|
  source := Some v; language_name := language_name d; iso_code := iso_code d;
  consonants := consonants d; vowels := vowels d |}.

Definition set_language_name (d : raw_record) (v : str) : raw_record := {|
  source := source d; language_name := Some v; iso_code := iso_code d;
  consonants := consonants d; vowels := vowels d |}.

Definition set_iso_code (d : raw_record) (v : str) : raw_record := {|
  source := source d; language_name := language_name d; iso_code := Some v;
  consonants := consonants d; vowels := vowels d |}.

(** [data["consonants"] += items]. *)
Definition add_consonants (d : raw_record) (items : list str) : raw_record := {|
  source := source d; language_name := language_name d; iso_code := iso_code d;
  consonants := consonants d ++ items; vowels := vowels d |}.

(** [data["vowels"] += items]. *)
Definition add_vowels (d : raw_record) (items : list str) : raw_record := {|
  source := source d; language_name := language_name d; iso_code := iso_code d;
  consonants := consonants d; vowels := vowels d ++ items |}.

(** One iteration of [for line in handler] on [(section, data)]: skip an
    empty line, read a header [#...] as [line[1:-1].strip()], and dispatch
    any other line on the current section. *)
Definition read_line (st : option str * raw_record) (raw : str) : option str * raw_record :=
  let (section, data) := st in
  let line := clean_line raw in
  match line with
  | [] => (section, data)
  | c :: _ =>
      if c =? HASH then (Some (strip (slice_inner line)), data)
      else if section_is section "Reference" then (section, set_source data line)
      else if section_is section "Language" then (section, set_language_name data line)
      else if section_is section "ISO Code" then (section, set_iso_code data line)
      else if section_is section "Consonant Inventory"
      then (section, add_consonants data (_splitter line))
      else if section_is section "Vowel Inventory"
      then (section, add_vowels data (_splitter line))
      else (section, data)
  end.

(** [read_raw_source(filename)], on the lines the file handler yields. *)
Definition read_raw_source (lines : list str) : raw_record :=
  snd (fold_left read_line lines (None, empty_record)).

(** ** Language table: [languages.csv], the Glottolog update and [source_map] *)

(** A cell of a row: a text, or Python's [None] (numbers from Glottolog
    are kept as their text). *)
Definition cell := option str.

Definition cell_eqb (a b : cell) : bool :=
  match a, b with
  | Some x, Some y => str_eqb x y
  | None, None => true
  | _, _ => false
  end.

(** A Python dict as an association list in insertion order. *)
Fixpoint dict_get {K V : Type} (eqb : K -> K -> bool) (d : list (K * V)) (k : K)
  : option V :=
  match d with
  | [] => None
  | (k', v) :: d' => if eqb k k' then Some v else dict_get eqb d' k
  end.

(** [d[k] = v]: an existing key keeps its place, a new key is appended. *)
Fixpoint dict_set {K V : Type} (eqb : K -> K -> bool) (d : list (K * V)) (k : K) (v : V)
  : list (K * V) :=
  match d with
  | [] => [(k, v)]
  | (k', v') :: d' => if eqb k k' then (k', v) :: d' else (k', v') :: dict_set eqb d' k v
  end.

(** [d.update(upd)]. *)
Definition dict_update {K V : Type} (eqb : K -> K -> bool) (d upd : list (K * V))
  : list (K * V) :=
  fold_left (fun d kv => dict_set eqb d (fst kv) (snd kv)) upd d.

(** A row of [self.etc_dir.read_csv("languages.csv", dicts=True)]. *)
Definition row := list (str * cell).

(** What the code reads of [glottolog.languoid(code)]: the lineage as
    [(name, glottocode, level)] triples, the coordinates, the macroarea
    names and the name. *)
Record languoid := {
  lineage : list (str * str * str);
  latitude : cell;
  longitude : cell;
  macroareas : list str;
  lname : str
}.

Section Languages.

(** [glottolog.languoid(_)]; [None] for an unknown code, on which
    [lang.lineage] raises. *)
Variable glottolog : str -> option languoid.

(** The [update] dict built for a languoid. *)
Definition glottolog_update (code : str) (lang : languoid) : row :=
  [(u "Family_Glottocode",
      match lineage lang with (_, g, _) :: _ => Some g | [] => None end);
   (u "Family_Name",
      match lineage lang with (n, _, _) :: _ => Some n | [] => None end);
   (u "Glottocode", Some code);
   (u "Latitude", latitude lang);
   (u "Longitude", longitude lang);
   (u "Macroarea", match macroareas lang with m :: _ => Some m | [] => None end);
   (u "Glottolog_Name", Some (lname lang))].

(** The body of [for row in ...]: [if row["Glottocode"]: ... row.update(update)]. *)
Definition enrich_row (r : row) : option row :=
  match dict_get str_eqb r (u "Glottocode") with
  | None => None
  | Some None => Some r
  | Some (Some code) =>
      if nonempty code then
        match glottolog code with
        | None => None
        | Some lang => Some (dict_update str_eqb r (glottolog_update code lang))
        end
      else Some r
  end.

(** [languages]: every row, enriched, in order. *)
Fixpoint load_languages (rows : list row) : option (list row) :=
  match rows with
  | [] => Some []
  | r :: rs =>
      match enrich_row r with
      | None => None
      | Some r' => option_map (cons r') (load_languages rs)
      end
  end.

End Languages.

(** [source_map = {lang["ID"]: lang["Source"] for lang in languages}],
    from the dict [acc] built so far. *)
Fixpoint build_source_map (acc : list (cell * cell)) (langs : list row)
  : option (list (cell * cell)) :=
  match langs with
  | [] => Some acc
  | r :: rs =>
      match dict_get str_eqb r (u "ID"), dict_get str_eqb r (u "Source") with
      | Some k, Some v => build_source_map (dict_set cell_eqb acc k v) rs
      | _, _ => None
      end
  end.

Definition source_map_of (langs : list row) : option (list (cell * cell)) :=
  build_source_map [] langs.

(** Outcome of a resolution, as the [par_id] prefix records it. *)
Definition outcome_prefix (s : sound) : str :=
  match s with UnknownSound => u "UNK_" | Sound _ _ => u "BIPA_" end.

Definition is_unknown (s : sound) : bool :=
  match s with UnknownSound => true | Sound _ _ => false end.

(** ** Evaluation instances of the external libraries *)

(** [unidecode] on ASCII text: the identity. *)
Definition unidecode_eval (s : str) : str := s.

(** [clldutils.misc.slug] on ASCII letters, digits, punctuation and spaces:
    letters lower-cased, digits kept, everything else dropped. *)
Definition slug_eval (s : str) : str :=
  flat_map (fun c =>
    if (65 <=? c) && (c <=? 90) then [c + 32]
    else if ((97 <=? c) && (c <=? 122)) || ((48 <=? c) && (c <=? 57)) then [c]
    else []) s.

(** [source_map] of a [languages.csv] with the single language [testlang]. *)
Definition source_map_eval (k : str) : option str :=
  if str_eqb k (u "testlang") then Some (u "TestSource2020") else None.

(** A catalog whose grapheme map sends every grapheme to itself and whose
    sound table knows every non-empty grapheme, named after itself. *)
Definition catalog_self : catalog := {|
  grapheme_map := fun s => Some s;
  bipa := fun s => if nonempty s then Sound s s else UnknownSound
|}.

(** A one-record input. *)
Definition record_of (lang : String.string) (cons vows : list str) : raw_record := {|
  source := None; language_name := Some (u lang); iso_code := None;
  consonants := cons; vowels := vows
|}.

(** A catalog whose grapheme map knows only ["p"]. *)
Definition catalog_p : catalog := {|
  grapheme_map := fun s => if str_eqb s (u "p") then Some (u "p") else None;
  bipa := fun s =>
    if str_eqb s (u "p") then Sound (u "p") (u "voiceless bilabial stop consonant")
    else UnknownSound
|}.

(** A catalog whose grapheme map sends the marginal ["(p)"] to ["pʰ"]. *)
Definition catalog_marked : catalog := {|
  grapheme_map := fun s => if str_eqb s (u "(p)") then Some [112; 688] else None;
  bipa := fun s =>
    if str_eqb s (u "p") then Sound (u "p") (u "voiceless bilabial stop consonant")
    else if str_eqb s [112; 688]
    then Sound [112; 688] (u "aspirated voiceless bilabial stop consonant")
    else UnknownSound
|}.

(** Two rows of [languages.csv] for [testlang]; the second one wins. *)
Definition languages_eval : list row :=
  [[(u "ID", Some (u "testlang")); (u "Glottocode", Some []); (u "Source", Some (u "A2000"))];
   [(u "ID", Some (u "testlang")); (u "Glottocode", Some []); (u "Source", Some (u "B2010"))]].

(** A Glottolog that knows one languoid. *)
Definition glottolog_eval (code : str) : option languoid :=
  if str_eqb code (u "test1234") then
    Some {| lineage := [(u "Testic", u "test1000", u "family")];
            latitude := Some (u "1.5"); longitude := Some (u "2.5");
            macroareas := [u "Eurasia"]; lname := u "Test" |}
  else None.

(** One row of [languages.csv] with a Glottocode [glottolog_eval] knows. *)
Definition enriched_rows_eval : list row :=
  [[(u "ID", Some (u "testlang")); (u "Glottocode", Some (u "test1234"));
    (u "Source", Some (u "A2000"))]].

(** ** Facts about the Identifier Encoder *)

Module EncoderFacts.

(** A code point written by [hex_digit]: [0-9] or [A-F]. *)
Definition hexchar (c : N) : bool :=
  ((48 <=? c) && (c <=? 57)) || ((65 <=? c) && (c <=? 70)).

(** Reading one hexadecimal digit back. *)
Definition digit_val (c : N) : N := if c <? 58 then c - 48 else c - 55.

(** Reading a string of hexadecimal digits, most significant first. *)
Definition hex_val (l : str) : N := fold_left (fun acc d => acc * 16 + digit_val d) l 0.

Lemma digit_val_hex_digit d : d < 16 -> digit_val (hex_digit d) = d.
Proof.
  intros Hd. unfold digit_val, hex_digit.
  destruct (N.ltb_spec d 10).
  - destruct (N.ltb_spec (48 + d) 58); lia.
  - destruct (N.ltb_spec (55 + d) 58); lia.
Qed.

Lemma hexchar_hex_digit d : d < 16 -> hexchar (hex_digit d) = true.
Proof.
  intros Hd. unfold hexchar, hex_digit.
  destruct (N.ltb_spec d 10).
  - apply orb_true_intro; left; apply andb_true_intro; split;
      apply N.leb_le; lia.
  - apply orb_true_intro; right; apply andb_true_intro; split;
      apply N.leb_le; lia.
Qed.

Lemma hex_val_snoc l d : hex_val (l ++ [d]) = hex_val l * 16 + digit_val d.
Proof. unfold hex_val. rewrite fold_left_app. reflexivity. Qed.

Lemma hex_val_hex_rev f n :
  n < 2 ^ N.of_nat f -> hex_val (rev (hex_rev f n)) = n.
Proof.
  revert n. induction f as [|f IH]; intros n Hn.
  - simpl in Hn. unfold hex_val. simpl. lia.
  - simpl. destruct (N.eqb_spec n 0) as [->|Hn0]; [reflexivity|].
    simpl. rewrite hex_val_snoc.
    assert (Hm : n mod 16 < 16) by (apply N.mod_lt; lia).
    rewrite digit_val_hex_digit by exact Hm.
    pose proof (N.div_mod n 16 ltac:(lia)) as Hdm.
    rewrite IH.
    + lia.
    + rewrite Nat2N.inj_succ, N.pow_succ_r' in Hn.
      remember (2 ^ N.of_nat f) as X. remember (n / 16) as q.
      remember (n mod 16) as r. lia.
Qed.

Lemma size_nat_bound n : n < 2 ^ N.of_nat (N.size_nat n).
Proof.
  destruct n as [|p]; [simpl; lia|].
  simpl. induction p as [p IH|p IH|]; simpl Pos.size_nat;
    rewrite ?Nat2N.inj_succ, ?N.pow_succ_r'; lia.
Qed.

Lemma hex_val_repeat_zero k l : hex_val (repeat 48 k ++ l) = hex_val l.
Proof.
  unfold hex_val. rewrite fold_left_app.
  replace (fold_left _ (repeat 48 k) 0) with 0; [reflexivity|].
  induction k as [|k IH]; [reflexivity|]. simpl. exact IH.
Qed.

Lemma hex_val_hex4 n : hex_val (hex4 n) = n.
Proof.
  unfold hex4. rewrite hex_val_repeat_zero. unfold hex_upper.
  destruct (N.eqb_spec n 0) as [->|]; [reflexivity|].
  apply hex_val_hex_rev, size_nat_bound.
Qed.

Lemma hex_rev_hexchar f n : forallb hexchar (hex_rev f n) = true.
Proof.
  revert n. induction f as [|f IH]; intros n; [reflexivity|].
  simpl. destruct (n =? 0); [reflexivity|].
  simpl. rewrite hexchar_hex_digit by (apply N.mod_lt; lia). apply IH.
Qed.

Lemma hex4_hexchar n : forallb hexchar (hex4 n) = true.
Proof.
  unfold hex4. rewrite forallb_app. apply andb_true_intro. split.
  - induction (4 - length (hex_upper n))%nat; [reflexivity|]. simpl. assumption.
  - unfold hex_upper. destruct (n =? 0); [reflexivity|].
    rewrite forallb_forall. intros x Hx. apply in_rev in Hx.
    pose proof (hex_rev_hexchar (N.size_nat n) n) as H.
    rewrite forallb_forall in H. auto.
Qed.

(** [unicode_repr] is empty or starts with a [u]. *)
Definition starts_token (t : str) : Prop := t = [] \/ hd 0 t = LOWER_U.

Lemma unicode_repr_starts text : starts_token (unicode_repr text).
Proof. destruct text; [left|right]; reflexivity. Qed.

Lemma hex_split d1 d2 t1 t2 :
  forallb hexchar d1 = true -> forallb hexchar d2 = true ->
  starts_token t1 -> starts_token t2 ->
  d1 ++ t1 = d2 ++ t2 -> d1 = d2 /\ t1 = t2.
Proof.
  revert d2. induction d1 as [|x d1 IH]; intros [|y d2] H1 H2 S1 S2 E.
  - auto.
  - exfalso. simpl in *. apply andb_true_iff in H2 as [Hy _].
    destruct S1 as [->|S1]; [discriminate|].
    rewrite E in S1. simpl in S1. subst y. discriminate.
  - exfalso. simpl in *. apply andb_true_iff in H1 as [Hx _].
    destruct S2 as [->|S2]; [discriminate|].
    rewrite <- E in S2. simpl in S2. subst x. discriminate.
  - simpl in *. apply andb_true_iff in H1 as [_ H1].
    apply andb_true_iff in H2 as [_ H2]. injection E as -> E.
    destruct (IH d2 H1 H2 S1 S2 E) as [-> ->]. auto.
Qed.

Lemma unicode_repr_inj x y : unicode_repr x = unicode_repr y -> x = y.
Proof.
  revert y. induction x as [|a x IH]; intros [|b y] E.
  - reflexivity.
  - discriminate E.
  - discriminate E.
  - unfold unicode_repr in E. simpl in E. injection E as E.
    fold (unicode_repr x) (unicode_repr y) in E.
    destruct (hex_split _ _ _ _ (hex4_hexchar a) (hex4_hexchar b)
                (unicode_repr_starts x) (unicode_repr_starts y) E) as [Ed Er].
    rewrite <- (hex_val_hex4 a), <- (hex_val_hex4 b), Ed.
    rewrite (IH y Er). reflexivity.
Qed.

Lemma unicode_repr_no_underscore text : ~ In UNDERSCORE (unicode_repr text).
Proof.
  induction text as [|a text IH]; [simpl; tauto|].
  unfold unicode_repr. simpl. fold (unicode_repr text).
  intros [H|H]; [discriminate H|].
  apply in_app_or in H as [H|H]; [|contradiction].
  pose proof (hex4_hexchar a) as Hh. rewrite forallb_forall in Hh.
  specialize (Hh _ H). discriminate Hh.
Qed.

(** The first occurrence of a separator splits a string uniquely. *)
Lemma first_sep (c : N) x1 x2 y1 y2 :
  ~ In c x1 -> ~ In c x2 -> x1 ++ c :: y1 = x2 ++ c :: y2 -> x1 = x2 /\ y1 = y2.
Proof.
  revert x2. induction x1 as [|a x1 IH]; intros [|b x2] N1 N2 E; simpl in *.
  - injection E as E. auto.
  - injection E as -> _. tauto.
  - injection E as -> _. tauto.
  - injection E as -> E. destruct (IH x2 ltac:(tauto) ltac:(tauto) E) as [-> ->]. auto.
Qed.

(** The last occurrence of a separator splits a string uniquely. *)
Lemma last_sep (c : N) x1 x2 y1 y2 :
  ~ In c y1 -> ~ In c y2 -> x1 ++ c :: y1 = x2 ++ c :: y2 -> x1 = x2 /\ y1 = y2.
Proof.
  intros N1 N2 E.
  assert (E' : rev y1 ++ c :: rev x1 = rev y2 ++ c :: rev x2).
  { replace (rev y1 ++ c :: rev x1) with (rev (x1 ++ c :: y1))
      by (rewrite rev_app_distr; simpl; rewrite <- app_assoc; reflexivity).
    rewrite E. rewrite rev_app_distr; simpl; rewrite <- app_assoc; reflexivity. }
  apply first_sep in E' as [Ey Ex];
    [| rewrite <- in_rev; assumption | rewrite <- in_rev; assumption].
  split; [rewrite <- (rev_involutive x1), Ex|rewrite <- (rev_involutive y1), Ey];
    apply rev_involutive.
Qed.

End EncoderFacts.

(** ** Facts about the Grapheme Normalizer *)

Module NormalizerFacts.

Lemma bounded_true_shape o c t :
  o <> c -> bounded_by o c t = Some true -> t = o :: slice_inner t ++ [c].
Proof.
  intros Hoc H. destruct t as [|h t']; [discriminate H|].
  simpl in H. injection H as H. apply andb_true_iff in H as [Ho Hc].
  apply N.eqb_eq in Ho, Hc. subst h.
  destruct t' as [|h2 t'']; [unfold last_char in Hc; simpl in Hc; congruence|].
  unfold slice_inner. simpl tl. f_equal.
  unfold last_char in Hc. simpl in Hc.
  change (match t'' with [] => h2 | _ :: _ => last t'' 0 end) with (last (h2 :: t'') 0) in Hc.
  rewrite <- Hc. apply app_removelast_last. discriminate.
Qed.

Lemma removelast_length_le (l : str) : (length (removelast l) <= length l)%nat.
Proof.
  induction l as [|a l IH]; [simpl; lia|].
  destruct l as [|b l]; simpl in *; lia.
Qed.

Lemma slice_inner_shorter t : t <> [] -> (length (slice_inner t) < length t)%nat.
Proof.
  intros Ht. destruct t as [|h t]; [congruence|].
  unfold slice_inner. simpl. pose proof (removelast_length_le t). lia.
Qed.

Lemma removelast_nil (t : str) : removelast t = [] -> t = [] \/ exists z, t = [z].
Proof.
  destruct t as [|a [|b t]]; simpl; intros H; eauto. discriminate H.
Qed.

(** A bracket pair stripped from a string in NFC leaves a string in NFC. *)
Lemma nfc_strip nfc o c t :
  nfc_laws nfc -> bracket o = true -> bracket c = true -> o <> c ->
  nfc t = t -> bounded_by o c t = Some true -> nfc (slice_inner t) = slice_inner t.
Proof.
  intros L Ho Hc Hoc Ht Hb. apply (nfc_inner nfc L o _ c Ho Hc).
  rewrite <- (bounded_true_shape o c t Hoc Hb). exact Ht.
Qed.

(** The output of [normalize_grapheme] is in NFC. *)
Lemma normalize_nfc nfc x y :
  nfc_laws nfc -> normalize_grapheme nfc x = Some y -> nfc y = y.
Proof.
  intros L H. unfold normalize_grapheme in H.
  assert (H0 : nfc (nfc x) = nfc x) by apply (nfc_idem nfc L).
  destruct (bounded_by LPAR RPAR (nfc x)) as [b1|] eqn:B1; [|discriminate H].
  set (t1 := if b1 then slice_inner (nfc x) else nfc x) in H.
  assert (H1 : nfc t1 = t1).
  { unfold t1. destruct b1; [|exact H0].
    apply (nfc_strip nfc LPAR RPAR); auto; discriminate. }
  destruct (bounded_by LBRACK RBRACK t1) as [b2|] eqn:B2; [|discriminate H].
  injection H as <-. destruct b2; [|exact H1].
  apply (nfc_strip nfc LBRACK RBRACK); auto; discriminate.
Qed.

(** On a string in NFC, [normalize_grapheme] returns it unchanged exactly
    when it is non-empty and bounded by neither pair; otherwise it returns
    a shorter string or fails. *)
Lemma normalize_fixed_iff nfc y :
  nfc y = y ->
  normalize_grapheme nfc y = Some y <->
  bounded_by LPAR RPAR y = Some false /\ bounded_by LBRACK RBRACK y = Some false.
Proof.
  intros Hy. unfold normalize_grapheme. rewrite Hy. split.
  - intros H.
    destruct (bounded_by LPAR RPAR y) as [b1|] eqn:B1; [|discriminate H].
    assert (Hne : y <> []) by (intros ->; discriminate B1).
    destruct b1.
    + exfalso. pose proof (slice_inner_shorter y Hne) as Hs.
      destruct (bounded_by LBRACK RBRACK (slice_inner y)) as [b2|] eqn:B2;
        [|discriminate H].
      injection H as H. destruct b2.
      * assert (Hne' : slice_inner y <> []) by (intros E; rewrite E in B2; discriminate B2).
        pose proof (slice_inner_shorter _ Hne'). rewrite H in *. lia.
      * rewrite H in Hs. lia.
    + split; [reflexivity|].
      destruct (bounded_by LBRACK RBRACK y) as [[|]|] eqn:B2; [|reflexivity|discriminate H].
      exfalso. injection H as H. pose proof (slice_inner_shorter y Hne). rewrite H in *. lia.
  - intros [-> ->]. reflexivity.
Qed.

(** When does [normalize_grapheme] raise? *)
Lemma normalize_none_iff nfc x :
  normalize_grapheme nfc x = None <-> nfc x = [] \/ nfc x = [LPAR; RPAR].
Proof.
  unfold normalize_grapheme. destruct (nfc x) as [|h t] eqn:E.
  - simpl. split; auto.
  - simpl bounded_by at 1.
    destruct ((h =? LPAR) && (last_char (h :: t) =? RPAR)) eqn:B.
    + apply andb_true_iff in B as [Bh Bl]. apply N.eqb_eq in Bh, Bl. subst h.
      unfold slice_inner. simpl tl.
      destruct (removelast t) as [|z r] eqn:R.
      * simpl. split; [intros _|reflexivity]. right.
        destruct (removelast_nil t R) as [->|[z ->]].
        -- unfold last_char in Bl. simpl in Bl. discriminate Bl.
        -- unfold last_char in Bl. simpl in Bl. subst z. reflexivity.
      * simpl. split; [discriminate|]. intros [H|H]; [discriminate H|].
        injection H as ->. simpl in R. discriminate R.
    + split; [discriminate|]. intros [H|H]; [discriminate H|].
      injection H as -> ->. discriminate B.
Qed.

Lemma nfc_eval_laws : nfc_laws nfc_eval.
Proof.
  split; unfold nfc_eval; auto.
Qed.

(** Any NFC satisfying [nfc_laws] normalizes ["((a))"] to ["(a)"] and that
    to ["a"]. *)
Lemma normalize_twice_laws nfc :
  nfc_laws nfc ->
  normalize_grapheme nfc (u "((a))") = Some (u "(a)") /\
  normalize_grapheme nfc (u "(a)") = Some (u "a").
Proof.
  intros L. unfold normalize_grapheme.
  rewrite (nfc_low nfc L (u "((a))")), (nfc_low nfc L (u "(a)")) by reflexivity.
  split; reflexivity.
Qed.

End NormalizerFacts.

(** ** Facts about the comma splitter *)

Module SplitterFacts.

(** The splitter as the amended claim describes it: split at every comma
    whose following text does not reach a [)] before a [(] (no [)] closes
    an enclosing pair after it), trim each piece, drop the empty ones. *)
Fixpoint split_at_commas (cur : str) (s : str) : list str :=
  match s with
  | [] => [rev cur]
  | c :: s' =>
      if (c =? COMMA) && negb (close_ahead s') then rev cur :: split_at_commas [] s'
      else split_at_commas (c :: cur) s'
  end.

Definition splitter_spec (text : str) : list str :=
  filter nonempty (map strip (split_at_commas [] text)).

Lemma isspace_not_special c :
  isspace c = true -> c <> LPAR /\ c <> RPAR /\ c <> COMMA.
Proof.
  intros H. repeat split; intros ->; discriminate H.
Qed.

Lemma close_ahead_skip k s :
  (k <= ws_len s)%nat -> close_ahead (skipn k s) = close_ahead s.
Proof.
  revert s. induction k as [|k IH]; intros s Hk; [reflexivity|].
  destruct s as [|c s']; [reflexivity|].
  simpl in Hk. destruct (isspace c) eqn:Hc; [|lia].
  destruct (isspace_not_special c Hc) as [Hl [Hr _]].
  simpl skipn. rewrite IH by lia. simpl.
  apply N.eqb_neq in Hl, Hr. rewrite Hl, Hr. reflexivity.
Qed.

Lemma ws_not_close_spec k s :
  (k <= ws_len s)%nat ->
  ws_not_close k s = if close_ahead s then None else Some k.
Proof.
  induction k as [|k IH]; intros Hk.
  - change (ws_not_close O s) with
      (if negb (close_ahead (skipn O s)) then Some O else None).
    change (skipn O s) with s. destruct (close_ahead s); reflexivity.
  - change (ws_not_close (S k) s) with
      (if negb (close_ahead (skipn (S k) s)) then Some (S k) else ws_not_close k s).
    rewrite close_ahead_skip by exact Hk.
    destruct (close_ahead s) eqn:E; simpl; [|reflexivity].
    apply IH. lia.
Qed.

(** Pieces related up to leading whitespace. *)
Definition ws_prefixed (a b : str) : Prop :=
  exists w, forallb isspace w = true /\ b = w ++ a.

Lemma re_split_go_spec s : forall k cur w,
  (k <> 0%nat -> cur = []) -> (k <= ws_len s)%nat -> forallb isspace w = true ->
  Forall2 ws_prefixed (re_split_go k cur s) (split_at_commas (cur ++ rev w) s).
Proof.
  induction s as [|c s IH]; intros k cur w Hk Hws Hw.
  - simpl. constructor; [|constructor].
    exists w. split; [exact Hw|]. rewrite rev_app_distr, rev_involutive. reflexivity.
  - destruct k as [|k].
    + simpl re_split_go. simpl split_at_commas.
      destruct (c =? COMMA) eqn:Hc.
      * rewrite ws_not_close_spec by lia. simpl.
        destruct (close_ahead s) eqn:Hcl; simpl.
        -- apply (IH O (c :: cur) w); auto; lia.
        -- constructor.
           ++ exists w. split; [exact Hw|]. rewrite rev_app_distr, rev_involutive. reflexivity.
           ++ apply (IH (ws_len s) [] []); auto.
      * simpl. apply (IH O (c :: cur) w); auto; lia.
    + rewrite (Hk ltac:(discriminate)). cbn [ws_len] in Hws.
      destruct (isspace c) eqn:Hsp; [|lia].
      destruct (isspace_not_special c Hsp) as [_ [_ Hcm]].
      cbn [re_split_go split_at_commas app]. apply N.eqb_neq in Hcm. rewrite Hcm.
      cbn [andb].
      replace (c :: rev w) with ([] ++ rev (w ++ [c]))
        by (rewrite rev_app_distr; reflexivity).
      apply IH; auto; [lia|].
      rewrite forallb_app, Hw. cbn [forallb]. rewrite Hsp. reflexivity.
Qed.

Lemma lstrip_ws w a : forallb isspace w = true -> lstrip (w ++ a) = lstrip a.
Proof.
  induction w as [|c w IH]; intros H; [reflexivity|].
  simpl in H. apply andb_true_iff in H as [Hc H]. simpl. rewrite Hc. auto.
Qed.

Lemma strip_ws_prefixed a b : ws_prefixed a b -> strip b = strip a.
Proof.
  intros [w [Hw ->]]. unfold strip. rewrite lstrip_ws by exact Hw. reflexivity.
Qed.

Lemma map_strip_ws_prefixed l l' :
  Forall2 ws_prefixed l l' -> map strip l' = map strip l.
Proof.
  induction 1 as [|a b l l' Hab Hl IH]; [reflexivity|].
  simpl. rewrite (strip_ws_prefixed a b Hab), IH. reflexivity.
Qed.

Lemma splitter_refines text : _splitter text = splitter_spec text.
Proof.
  unfold _splitter, splitter_spec, re_split_comma.
  pose proof (re_split_go_spec text O [] [] (fun _ => eq_refl) ltac:(lia) eq_refl) as H.
  apply map_strip_ws_prefixed in H. simpl app in H. rewrite H. reflexivity.
Qed.

End SplitterFacts.

(** ** Facts about the Allophone Reducer *)

Module ReducerFacts.

Definition has (c : N) (s : str) : bool := existsb (N.eqb c) s.

(** No [(] of [s] is followed, later in [s], by a [)]: no parenthesized
    span is left. *)
Fixpoint no_span (s : str) : bool :=
  match s with
  | [] => true
  | c :: s' => (negb (c =? LPAR) || negb (has RPAR s')) && no_span s'
  end.

Lemma no_span_no_close s : has RPAR s = false -> no_span s = true.
Proof.
  induction s as [|c s IH]; intros H; [reflexivity|].
  simpl in *. apply orb_false_iff in H as [_ H]. rewrite H, IH by exact H.
  rewrite orb_true_r. reflexivity.
Qed.

Lemma has_rev c s : has c (rev s) = has c s.
Proof.
  unfold has. destruct (existsb (N.eqb c) s) eqn:E.
  - apply existsb_exists in E as [x [Hx Ex]]. apply existsb_exists.
    exists x. split; [apply in_rev; rewrite rev_involutive; exact Hx|exact Ex].
  - apply not_true_iff_false. intros H. apply existsb_exists in H as [x [Hx Ex]].
    apply in_rev in Hx. assert (existsb (N.eqb c) s = true) by (apply existsb_exists; eauto).
    congruence.
Qed.

Lemma sub_parens_no_span s : forall buf,
  (forall b, buf = Some b -> has RPAR b = false) ->
  no_span (sub_parens_go buf s) = true.
Proof.
  induction s as [|c s IH]; intros buf Hb.
  - destruct buf as [b|]; [|reflexivity].
    cbn [sub_parens_go]. apply no_span_no_close. rewrite has_rev. auto.
  - destruct buf as [b|]; cbn [sub_parens_go].
    + destruct (c =? RPAR) eqn:Hc.
      * apply IH. discriminate.
      * apply IH. intros b' E. injection E as <-. unfold has. cbn [existsb].
        fold (has RPAR b). rewrite (Hb b eq_refl), N.eqb_sym, Hc. reflexivity.
    + destruct (c =? LPAR) eqn:Hc.
      * apply IH. intros b' E. injection E as <-. apply N.eqb_eq in Hc. subst c.
        reflexivity.
      * cbn [no_span]. rewrite Hc. cbn [negb orb andb]. apply IH. discriminate.
Qed.

Lemma sub_parens_close m b buf :
  has RPAR m = false -> sub_parens_go (Some buf) (m ++ RPAR :: b) = sub_parens b.
Proof.
  revert buf. induction m as [|c m IH]; intros buf H; [reflexivity|].
  unfold has in H. cbn [existsb] in H. apply orb_false_iff in H as [Hc H].
  rewrite N.eqb_sym in Hc. cbn [app sub_parens_go]. rewrite Hc. apply IH, H.
Qed.

(** A span [( ... )] with no [)] inside, after a prefix with no [(], is
    removed and the prefix kept. *)
Lemma sub_parens_span a m b :
  has LPAR a = false -> has RPAR m = false ->
  sub_parens (a ++ LPAR :: m ++ RPAR :: b) = a ++ sub_parens b.
Proof.
  intros Ha Hm. induction a as [|c a IH].
  - unfold sub_parens. cbn [app sub_parens_go]. apply sub_parens_close, Hm.
  - unfold has in Ha. cbn [existsb] in Ha. apply orb_false_iff in Ha as [Hc Ha].
    rewrite N.eqb_sym in Hc. unfold sub_parens in *. cbn [app sub_parens_go].
    rewrite Hc. f_equal. apply IH, Ha.
Qed.

End ReducerFacts.

(** ** Facts about the pipeline run *)

Module PipelineFacts.

Definition id_value (v : value_row) : nat * str := (v_ID v, v_Value v).

Lemma combine_app {A B : Type} (a b : list A) (c d : list B) :
  length a = length c -> combine (a ++ b) (c ++ d) = combine a c ++ combine b d.
Proof.
  revert c. induction a as [|x a IH]; intros [|y c] H; try discriminate H; [reflexivity|].
  simpl. f_equal. apply IH. simpl in H. lia.
Qed.

Lemma map_snd_combine {A B : Type} (a : list A) (b : list B) :
  length a = length b -> map snd (combine a b) = b.
Proof.
  revert b. induction a as [|x a IH]; intros [|y b] H; try discriminate H; [reflexivity|].
  simpl. f_equal. apply IH. simpl in H. lia.
Qed.

Lemma reduce_all_forall2 l l' :
  reduce_all l = Some l' -> Forall2 (fun s s' => reduce_segment s = Some s') l l'.
Proof.
  revert l'. induction l as [|s l IH]; intros l' H.
  - injection H as <-. constructor.
  - simpl in H. destruct (reduce_segment s) as [r|] eqn:Er; [|discriminate H].
    destruct (reduce_all l) as [rs|] eqn:Erl; [|discriminate H].
    injection H as <-. constructor; auto.
Qed.

Lemma dedup_incl t l : In t (dedup l) -> In t l.
Proof.
  induction l as [|x l IH]; simpl; [tauto|].
  destruct (existsb (tuple_eqb x) l); simpl; intuition.
Qed.

Section Run.

Variable nfc : str -> str.
Variables unidecode slug : str -> str.
Variable cat : catalog.
Variable source_map : str -> option str.

Definition resolved (t : param_tuple) : Prop :=
  exists seg s, resolve_segment nfc unidecode slug cat seg = Some (s, t).

Lemma process_segment_step lang st seg st' :
  process_segment nfc unidecode slug cat source_map lang st seg = Some st' ->
  counter st' = S (counter st) /\
  map id_value (values st') = map id_value (values st) ++ [(counter st, seg)] /\
  exists s t, resolve_segment nfc unidecode slug cat seg = Some (s, t) /\
              segments st' = segments st ++ [t].
Proof.
  unfold process_segment.
  destruct (resolve_segment nfc unidecode slug cat seg) as [[s t]|] eqn:E; [|discriminate].
  destruct lang as [name|]; [|discriminate].
  destruct (source_map (slug name)); [|discriminate].
  intros H. injection H as <-. simpl. rewrite map_app.
  split; [reflexivity|]. split; [reflexivity|]. eauto.
Qed.

Lemma fold_segments lang segs : forall st st',
  fold_opt (process_segment nfc unidecode slug cat source_map lang) st segs = Some st' ->
  counter st' = (counter st + length segs)%nat /\
  map id_value (values st') =
    map id_value (values st) ++ combine (seq (counter st) (length segs)) segs /\
  (forall t, In t (segments st') -> In t (segments st) \/ resolved t).
Proof.
  induction segs as [|seg segs IH]; intros st st' H.
  - injection H as <-. simpl. rewrite app_nil_r. split; [lia|]. auto.
  - simpl in H.
    destruct (process_segment nfc unidecode slug cat source_map lang st seg) as [st1|] eqn:E;
      [|discriminate H].
    destruct (process_segment_step lang st seg st1 E) as [Hc [Hv [s [t [Ht Hs]]]]].
    destruct (IH st1 st' H) as [Hc' [Hv' Ht']].
    split; [simpl; lia|]. split.
    + rewrite Hv', Hv, Hc. simpl. rewrite <- app_assoc. reflexivity.
    + intros t' Hin. destruct (Ht' t' Hin) as [Hin'|Hr]; [|auto].
      rewrite Hs in Hin'. apply in_app_or in Hin' as [Hin'|[<-|[]]]; [auto|].
      right. exists seg, s. exact Ht.
Qed.

Lemma fold_records records : forall st st',
  fold_opt (process_record nfc unidecode slug cat source_map) st records = Some st' ->
  exists Ls,
    Forall2 (fun r l => reduce_all (consonants r ++ vowels r) = Some l) records Ls /\
    counter st' = (counter st + length (concat Ls))%nat /\
    map id_value (values st') =
      map id_value (values st) ++ combine (seq (counter st) (length (concat Ls))) (concat Ls) /\
    (forall t, In t (segments st') -> In t (segments st) \/ resolved t).
Proof.
  induction records as [|r records IH]; intros st st' H.
  - injection H as <-. exists []. simpl. rewrite app_nil_r.
    split; [constructor|]. split; [lia|]. auto.
  - simpl in H.
    destruct (process_record nfc unidecode slug cat source_map st r) as [st1|] eqn:E;
      [|discriminate H].
    unfold process_record in E.
    destruct (reduce_all (consonants r ++ vowels r)) as [l|] eqn:El; [|discriminate E].
    destruct (fold_segments _ l st st1 E) as [Hc [Hv Ht]].
    destruct (IH st1 st' H) as [Ls [HF [Hc' [Hv' Ht']]]].
    exists (l :: Ls). split; [constructor; assumption|].
    simpl concat. rewrite length_app. split; [lia|]. split.
    + rewrite Hv', Hv, Hc, <- app_assoc. f_equal.
      rewrite seq_app, combine_app by (rewrite length_seq; reflexivity).
      reflexivity.
    + intros t Hin. destruct (Ht' t Hin) as [Hin'|Hr]; [|auto].
      apply Ht, Hin'.
Qed.

Definition value_resolved (v : value_row) : Prop :=
  exists s t, resolve_segment nfc unidecode slug cat (v_Value v) = Some (s, t) /\
              v_Parameter_ID v = t_par_id t.

Lemma process_segment_values lang st seg st' :
  process_segment nfc unidecode slug cat source_map lang st seg = Some st' ->
  forall v, In v (values st') -> In v (values st) \/ value_resolved v.
Proof.
  unfold process_segment.
  destruct (resolve_segment nfc unidecode slug cat seg) as [[s t]|] eqn:E; [|discriminate].
  destruct lang as [name|]; [|discriminate].
  destruct (source_map (slug name)); [|discriminate].
  intros H. injection H as <-. intros v Hv. simpl in Hv.
  apply in_app_or in Hv as [Hv|[<-|[]]]; [auto|].
  right. exists s, t. split; [exact E|reflexivity].
Qed.

Lemma fold_segments_values lang segs : forall st st',
  fold_opt (process_segment nfc unidecode slug cat source_map lang) st segs = Some st' ->
  forall v, In v (values st') -> In v (values st) \/ value_resolved v.
Proof.
  induction segs as [|seg segs IH]; intros st st' H v Hv.
  - injection H as <-. auto.
  - simpl in H.
    destruct (process_segment nfc unidecode slug cat source_map lang st seg) as [st1|] eqn:E;
      [|discriminate H].
    destruct (IH st1 st' H v Hv) as [Hv1|]; [|auto].
    exact (process_segment_values lang st seg st1 E v Hv1).
Qed.

Lemma fold_records_values records : forall st st',
  fold_opt (process_record nfc unidecode slug cat source_map) st records = Some st' ->
  forall v, In v (values st') -> In v (values st) \/ value_resolved v.
Proof.
  induction records as [|r records IH]; intros st st' H v Hv.
  - injection H as <-. auto.
  - simpl in H.
    destruct (process_record nfc unidecode slug cat source_map st r) as [st1|] eqn:E;
      [|discriminate H].
    destruct (IH st1 st' H v Hv) as [Hv1|]; [|auto].
    unfold process_record in E.
    destruct (reduce_all (consonants r ++ vowels r)) as [l|]; [|discriminate E].
    exact (fold_segments_values _ l st st1 E v Hv1).
Qed.

Lemma make_cldf_values_resolved records vals params :
  make_cldf nfc unidecode slug cat source_map records = Some (vals, params) ->
  forall v, In v vals -> value_resolved v.
Proof.
  unfold make_cldf.
  destruct (fold_opt (process_record nfc unidecode slug cat source_map) init_state records)
    as [st|] eqn:E; [|discriminate].
  intros H. injection H as <- _. intros v Hv.
  destruct (fold_records_values records init_state st E v Hv) as [[]|]. assumption.
Qed.

(** What a successful run produced. *)
Lemma make_cldf_run records vals params :
  make_cldf nfc unidecode slug cat source_map records = Some (vals, params) ->
  exists Ls,
    Forall2 (fun r l => reduce_all (consonants r ++ vowels r) = Some l) records Ls /\
    map id_value vals = combine (seq 1 (length (concat Ls))) (concat Ls) /\
    (forall p, In p params -> exists t, p = param_row_of t /\ resolved t).
Proof.
  unfold make_cldf.
  destruct (fold_opt (process_record nfc unidecode slug cat source_map) init_state records)
    as [st|] eqn:E; [|discriminate].
  intros H. injection H as <- <-.
  destruct (fold_records records init_state st E) as [Ls [HF [_ [Hv Ht]]]].
  exists Ls. split; [exact HF|]. split; [exact Hv|].
  intros p Hp. apply in_map_iff in Hp as [t [<- Hin]].
  exists t. split; [reflexivity|].
  apply dedup_incl in Hin. destruct (Ht t Hin) as [[]|Hr]. exact Hr.
Qed.

End Run.

End PipelineFacts.

(** ** Reading identifiers back *)

Module DecoderFacts.

Import EncoderFacts.

(** Splitting a code-point suffix at its [u]s: the text before the first
    [u], and the text of each token after its [u]. *)
Fixpoint read_tokens (s : str) : str * list str :=
  match s with
  | [] => ([], [])
  | c :: s' =>
      let (lead, toks) := read_tokens s' in
      if c =? LOWER_U then ([], lead :: toks) else (c :: lead, toks)
  end.

(** Reading a code-point suffix: every token is a non-empty run of
    hexadecimal digits, read as one code point. *)
Definition decode_repr (s : str) : option str :=
  match read_tokens s with
  | ([], toks) =>
      if forallb (fun t => nonempty t && forallb hexchar t) toks
      then Some (map hex_val toks) else None
  | _ => None
  end.

Fixpoint before_first (c : N) (s : str) : str :=
  match s with
  | [] => []
  | x :: s' => if x =? c then [] else x :: before_first c s'
  end.

(** The text after the last [c] of [s] (all of [s] when it has none). *)
Definition after_last (c : N) (s : str) : str := rev (before_first c (rev s)).

(** Reading an identifier back: the code-point suffix after its last [_]. *)
Definition decode_id (id : str) : option str := decode_repr (after_last UNDERSCORE id).

Lemma hexchar_not_u c : hexchar c = true -> (c =? LOWER_U) = false.
Proof.
  unfold hexchar. intros H. apply N.eqb_neq. intros ->. discriminate H.
Qed.

Lemma read_tokens_hex h s :
  forallb hexchar h = true ->
  read_tokens (h ++ s) = (h ++ fst (read_tokens s), snd (read_tokens s)).
Proof.
  induction h as [|c h IH]; intros H.
  - simpl. destruct (read_tokens s); reflexivity.
  - simpl in H. apply andb_true_iff in H as [Hc H].
    cbn [app read_tokens]. rewrite (IH H). rewrite (hexchar_not_u c Hc). reflexivity.
Qed.

Lemma read_tokens_repr text : read_tokens (unicode_repr text) = ([], map hex4 text).
Proof.
  induction text as [|a text IH]; [reflexivity|].
  unfold unicode_repr. cbn [map concat]. fold (unicode_repr text).
  unfold code_token. cbn [app read_tokens].
  rewrite (read_tokens_hex _ _ (hex4_hexchar a)), IH, N.eqb_refl.
  cbn [fst snd]. rewrite app_nil_r. reflexivity.
Qed.

Lemma hex4_length n : (4 <= length (hex4 n))%nat.
Proof. unfold hex4. rewrite length_app, repeat_length. lia. Qed.

Lemma decode_repr_repr text : decode_repr (unicode_repr text) = Some text.
Proof.
  unfold decode_repr. rewrite read_tokens_repr.
  replace (forallb _ (map hex4 text)) with true.
  - f_equal. rewrite map_map. rewrite (map_ext _ (fun x => x)) by apply hex_val_hex4.
    apply map_id.
  - symmetry. apply forallb_forall. intros t Ht. apply in_map_iff in Ht as [c [<- _]].
    rewrite hex4_hexchar. pose proof (hex4_length c).
    destruct (hex4 c); [simpl in *; lia|reflexivity].
Qed.

Lemma before_first_app c l r : ~ In c l -> before_first c (l ++ c :: r) = l.
Proof.
  induction l as [|x l IH]; intros H; simpl.
  - rewrite N.eqb_refl. reflexivity.
  - simpl in H. destruct (N.eqb_spec x c) as [->|]; [tauto|]. f_equal. apply IH. tauto.
Qed.

Lemma after_last_app c l r : ~ In c r -> after_last c (l ++ c :: r) = r.
Proof.
  intros H. unfold after_last. rewrite rev_app_distr. cbn [rev]. rewrite <- app_assoc.
  cbn [app]. rewrite before_first_app by (rewrite <- in_rev; exact H).
  apply rev_involutive.
Qed.

(** Number of hexadecimal digits. *)
Lemma hex_rev_length f n k :
  n < 2 ^ N.of_nat f -> (length (hex_rev f n) <= k)%nat <-> n < 16 ^ N.of_nat k.
Proof.
  revert n k. induction f as [|f IH]; intros n k Hn.
  - simpl in *. split; [intros _|lia].
    assert (16 ^ N.of_nat k <> 0) by (apply N.pow_nonzero; lia). lia.
  - cbn [hex_rev]. destruct (N.eqb_spec n 0) as [->|Hn0].
    + simpl. split; [intros _|lia].
      assert (16 ^ N.of_nat k <> 0) by (apply N.pow_nonzero; lia). lia.
    + cbn [length]. pose proof (N.div_mod n 16 ltac:(lia)) as Hdm.
      pose proof (N.mod_lt n 16 ltac:(lia)) as Hm.
      rewrite Nat2N.inj_succ, N.pow_succ_r' in Hn.
      assert (Hq : n / 16 < 2 ^ N.of_nat f).
      { remember (2 ^ N.of_nat f) as X. remember (n / 16) as q.
        remember (n mod 16) as r. lia. }
      destruct k as [|k].
      * simpl. split; [lia|]. intros H. lia.
      * rewrite Nat2N.inj_succ, N.pow_succ_r'. rewrite <- Nat.succ_le_mono.
        rewrite (IH (n / 16) k Hq).
        remember (16 ^ N.of_nat k) as X. remember (n / 16) as q.
        remember (n mod 16) as r. lia.
Qed.

Lemma hex_upper_short n : (length (hex_upper n) <= 4)%nat <-> n < 65536.
Proof.
  unfold hex_upper. destruct (N.eqb_spec n 0) as [->|Hn0].
  - simpl. split; [lia|lia].
  - rewrite length_rev. rewrite (hex_rev_length _ n 4 (size_nat_bound n)). reflexivity.
Qed.

End DecoderFacts.

(** ** Facts about trimming, the splitter and the reducer *)

Module StripFacts.

Lemma str_eqb_eq a b : str_eqb a b = true <-> a = b.
Proof. unfold str_eqb. destruct (list_eq_dec N.eq_dec a b); split; congruence. Qed.

Lemma str_eqb_refl a : str_eqb a a = true.
Proof. apply str_eqb_eq. reflexivity. Qed.

Lemma lstrip_suffix l : exists w, forallb isspace w = true /\ l = w ++ lstrip l.
Proof.
  induction l as [|c l [w [Hw E]]]; [exists []; auto|].
  simpl. destruct (isspace c) eqn:Hc.
  - exists (c :: w). simpl. rewrite Hc, Hw. split; [reflexivity|]. rewrite <- E. reflexivity.
  - exists []. auto.
Qed.

(** [lstrip] leaves nothing to strip. *)
Lemma lstrip_head l : forall c r, lstrip l = c :: r -> isspace c = false.
Proof.
  induction l as [|x l IH]; intros c r H; [discriminate H|].
  simpl in H. destruct (isspace x) eqn:Hx; [exact (IH c r H)|].
  injection H as -> _. exact Hx.
Qed.

Lemma lstrip_fixed l : (forall c r, l = c :: r -> isspace c = false) -> lstrip l = l.
Proof.
  destruct l as [|c r]; intros H; [reflexivity|]. simpl. rewrite (H c r eq_refl). reflexivity.
Qed.

Lemma lstrip_idem l : lstrip (lstrip l) = lstrip l.
Proof. apply lstrip_fixed. intros c r E. exact (lstrip_head l c r E). Qed.

Lemma strip_idem s : strip (strip s) = strip s.
Proof.
  unfold strip at 2 3. set (a := lstrip s). set (b := lstrip (rev a)).
  assert (Hb : lstrip (rev b) = rev b).
  { apply lstrip_fixed. intros c r E.
    destruct (lstrip_suffix (rev a)) as [w [_ Ew]]. fold b in Ew.
    assert (Ea : a = rev b ++ rev w)
      by (rewrite <- (rev_involutive a), Ew, rev_app_distr; reflexivity).
    rewrite E in Ea. exact (lstrip_head s c (r ++ rev w) Ea). }
  unfold strip. rewrite Hb, rev_involutive. unfold b. rewrite lstrip_idem. reflexivity.
Qed.

(** Every item of [_splitter] is non-empty and has nothing left to trim. *)
Lemma splitter_clean text : Forall (fun p => p <> [] /\ strip p = p) (_splitter text).
Proof.
  unfold _splitter. apply Forall_forall. intros p Hp.
  apply filter_In in Hp as [Hp Hne]. apply in_map_iff in Hp as [x [<- _]].
  split; [intros E; rewrite E in Hne; discriminate Hne|apply strip_idem].
Qed.

(** [str.split(",")]. *)
Fixpoint split_on (c : N) (cur : str) (s : str) : list str :=
  match s with
  | [] => [rev cur]
  | x :: s' => if x =? c then rev cur :: split_on c [] s' else split_on c (x :: cur) s'
  end.

Lemma close_ahead_no_close s : ReducerFacts.has RPAR s = false -> close_ahead s = false.
Proof.
  induction s as [|c s IH]; intros H; [reflexivity|].
  unfold ReducerFacts.has in H. cbn [existsb] in H. apply orb_false_iff in H as [Hc H].
  simpl. rewrite N.eqb_sym, Hc. destruct (c =? LPAR); [reflexivity|]. apply IH, H.
Qed.

Lemma split_at_commas_no_close s : forall cur,
  ReducerFacts.has RPAR s = false ->
  SplitterFacts.split_at_commas cur s = split_on COMMA cur s.
Proof.
  induction s as [|c s IH]; intros cur H; [reflexivity|].
  unfold ReducerFacts.has in H. cbn [existsb] in H. apply orb_false_iff in H as [_ H].
  cbn [SplitterFacts.split_at_commas split_on].
  rewrite close_ahead_no_close by exact H. rewrite andb_true_r.
  destruct (c =? COMMA); rewrite IH by exact H; reflexivity.
Qed.

End StripFacts.

Module ReducerMore.

Import ReducerFacts.

Lemma sub_parens_open m b : has RPAR m = false -> sub_parens_go (Some b) m = rev b ++ m.
Proof.
  revert b. induction m as [|c m IH]; intros b H; [simpl; rewrite app_nil_r; reflexivity|].
  unfold has in H. cbn [existsb] in H. apply orb_false_iff in H as [Hc H].
  cbn [sub_parens_go]. rewrite N.eqb_sym, Hc, IH by exact H.
  simpl. rewrite <- app_assoc. reflexivity.
Qed.

(** A string with no parenthesized span is left as it is. *)
Lemma sub_parens_no_span_id r : no_span r = true -> sub_parens r = r.
Proof.
  unfold sub_parens. induction r as [|c r IH]; intros H; [reflexivity|].
  cbn [no_span] in H. apply andb_true_iff in H as [H1 H2].
  cbn [sub_parens_go]. destruct (N.eqb_spec c LPAR) as [->|Hc].
  - cbn [negb orb] in H1. apply negb_true_iff in H1.
    rewrite sub_parens_open by exact H1. reflexivity.
  - f_equal. apply IH, H2.
Qed.

(** A last code point other than [)] is never removed. *)
Lemma sub_parens_last s z : z <> RPAR -> forall buf,
  exists p, sub_parens_go buf (s ++ [z]) = p ++ [z].
Proof.
  intros Hz. apply N.eqb_neq in Hz.
  induction s as [|c s IH]; intros buf.
  - destruct buf as [b|]; cbn [app sub_parens_go].
    + rewrite Hz. exists (rev b). reflexivity.
    + destruct (z =? LPAR); [exists []|exists []]; reflexivity.
  - destruct buf as [b|]; cbn [app sub_parens_go].
    + destruct (c =? RPAR); apply IH.
    + destruct (c =? LPAR); [apply IH|].
      destruct (IH None) as [p Hp]. rewrite Hp. exists (c :: p). reflexivity.
Qed.

Lemma last_in_has c t : t <> [] -> last t 0 = c -> has c t = true.
Proof.
  intros Ht Hl. unfold has. apply existsb_exists. exists (last t 0).
  split; [|rewrite Hl; apply N.eqb_refl].
  pose proof (app_removelast_last 0 Ht) as E. set (z := last t 0) in *. clearbody z.
  rewrite E. apply in_or_app. right. left. reflexivity.
Qed.

Lemma no_span_not_bounded r : no_span r = true -> r <> [] ->
  bounded_by LPAR RPAR r = Some false.
Proof.
  intros H Hr. destruct r as [|h t]; [congruence|].
  unfold bounded_by. f_equal.
  destruct (N.eqb_spec h LPAR) as [->|]; [|reflexivity].
  destruct (N.eqb_spec (last_char (LPAR :: t)) RPAR) as [Hl|]; [|reflexivity].
  exfalso. destruct t as [|x t]; [discriminate Hl|].
  unfold last_char in Hl. simpl in Hl.
  change (match t with [] => x | _ :: _ => last t 0 end) with (last (x :: t) 0) in Hl.
  cbn [no_span] in H. rewrite (last_in_has RPAR (x :: t) ltac:(discriminate) Hl) in H.
  discriminate H.
Qed.

Lemma reduce_segment_nonempty s r : reduce_segment s = Some r -> r <> [].
Proof.
  unfold reduce_segment. destruct s as [|h t]; [discriminate|].
  unfold bounded_by. destruct ((h =? LPAR) && (last_char (h :: t) =? RPAR)) eqn:B.
  - intros E. injection E as <-. discriminate.
  - intros E. injection E as <-. unfold sub_parens.
    destruct (N.eqb_spec h LPAR) as [->|Hh].
    + destruct (N.eqb_spec (last_char (LPAR :: t)) RPAR) as [Hl|Hl]; [discriminate B|].
      rewrite (app_removelast_last 0 (l := LPAR :: t) ltac:(discriminate)).
      destruct (sub_parens_last (removelast (LPAR :: t)) (last (LPAR :: t) 0) Hl None)
        as [p ->].
      destruct p; discriminate.
    + cbn [sub_parens_go]. apply N.eqb_neq in Hh. rewrite Hh. discriminate.
Qed.

End ReducerMore.

(** ** Facts about the line scanner *)

Module ParserFacts.

Import StripFacts.

(** Each content line (not empty, not a header) with the section it is
    read in. *)
Fixpoint tagged (section : option str) (lines : list str) : list (option str * str) :=
  match lines with
  | [] => []
  | l :: ls =>
      match clean_line l with
      | [] => tagged section ls
      | c :: r =>
          if c =? HASH then tagged (Some (strip (slice_inner (c :: r)))) ls
          else (section, c :: r) :: tagged section ls
      end
  end.

(** The content lines read in section [name]. *)
Definition lines_of (name : String.string) (ts : list (option str * str)) : list str :=
  map snd (filter (fun p => section_is (fst p) name) ts).

(** The last element of a list, [o] for an empty one. *)
Definition last_or (o : option str) (l : list str) : option str :=
  fold_left (fun _ x => Some x) l o.

Lemma section_is_true sec n : section_is sec n = true -> sec = Some (u n).
Proof.
  destruct sec as [s|]; [|discriminate]. simpl. intros H.
  apply str_eqb_eq in H. subst. reflexivity.
Qed.

Ltac settle_section :=
  match goal with
  | H : section_is ?sec _ = true |- _ =>
      apply section_is_true in H; subst sec; reflexivity
  end.

Lemma read_line_step sec d l :
  read_line (sec, d) l =
  match clean_line l with
  | [] => (sec, d)
  | c :: r =>
      if c =? HASH then (Some (strip (slice_inner (c :: r))), d)
      else (sec,
        {| source := if section_is sec "Reference" then Some (c :: r) else source d;
           language_name :=
             if section_is sec "Language" then Some (c :: r) else language_name d;
           iso_code := if section_is sec "ISO Code" then Some (c :: r) else iso_code d;
           consonants := if section_is sec "Consonant Inventory"
                         then consonants d ++ _splitter (c :: r) else consonants d;
           vowels := if section_is sec "Vowel Inventory"
                     then vowels d ++ _splitter (c :: r) else vowels d |})
  end.
Proof.
  unfold read_line. destruct (clean_line l) as [|c r]; [reflexivity|].
  destruct (c =? HASH); [reflexivity|].
  destruct (section_is sec "Reference") eqn:E1; [settle_section|].
  destruct (section_is sec "Language") eqn:E2; [settle_section|].
  destruct (section_is sec "ISO Code") eqn:E3; [settle_section|].
  destruct (section_is sec "Consonant Inventory") eqn:E4; [settle_section|].
  destruct (section_is sec "Vowel Inventory") eqn:E5; [settle_section|].
  destruct d. reflexivity.
Qed.

Lemma fold_read sec d lines :
  snd (fold_left read_line lines (sec, d)) =
  {| source := last_or (source d) (lines_of "Reference" (tagged sec lines));
     language_name := last_or (language_name d) (lines_of "Language" (tagged sec lines));
     iso_code := last_or (iso_code d) (lines_of "ISO Code" (tagged sec lines));
     consonants := consonants d ++
       concat (map _splitter (lines_of "Consonant Inventory" (tagged sec lines)));
     vowels := vowels d ++
       concat (map _splitter (lines_of "Vowel Inventory" (tagged sec lines))) |}.
Proof.
  revert sec d. induction lines as [|l ls IH]; intros sec d.
  - destruct d. simpl. rewrite !app_nil_r. reflexivity.
  - cbn [fold_left tagged]. rewrite read_line_step.
    destruct (clean_line l) as [|c r]; [apply IH|].
    destruct (c =? HASH); [apply IH|].
    rewrite IH. unfold lines_of. cbn [filter fst].
    destruct (section_is sec "Reference"), (section_is sec "Language"),
      (section_is sec "ISO Code"), (section_is sec "Consonant Inventory"),
      (section_is sec "Vowel Inventory");
      cbn [map snd concat last_or fold_left consonants vowels source language_name
           iso_code]; rewrite ?app_nil_r, ?app_assoc; reflexivity.
Qed.

Lemma read_line_blank st l : clean_line l = [] -> read_line st l = st.
Proof. destruct st as [sec d]. intros H. unfold read_line. rewrite H. reflexivity. Qed.

Definition remove_bom (l : str) : str := filter (fun c => negb (c =? BOM)) l.

Lemma filter_idem {A : Type} (f : A -> bool) l : filter f (filter f l) = filter f l.
Proof.
  induction l as [|x l IH]; [reflexivity|]. simpl.
  destruct (f x) eqn:E; simpl; rewrite ?E, IH; reflexivity.
Qed.

Lemma clean_line_remove_bom l : clean_line (remove_bom l) = clean_line l.
Proof. unfold clean_line, remove_bom. rewrite filter_idem. reflexivity. Qed.

(** The known section names. *)
Definition known_section (s : str) : bool :=
  existsb (fun n => str_eqb s (u n))
    ["Reference"; "Language"; "ISO Code"; "Consonant Inventory"; "Vowel Inventory"]%string.

Lemma unknown_section_is s n :
  known_section s = false ->
  In n ["Reference"; "Language"; "ISO Code"; "Consonant Inventory"; "Vowel Inventory"]%string ->
  section_is (Some s) n = false.
Proof.
  intros H Hn. unfold known_section in H. simpl.
  destruct (str_eqb s (u n)) eqn:E; [|reflexivity].
  assert (existsb (fun n => str_eqb s (u n))
    ["Reference"; "Language"; "ISO Code"; "Consonant Inventory"; "Vowel Inventory"]%string
    = true) by (apply existsb_exists; eauto).
  congruence.
Qed.

Lemma read_unknown_section s d body :
  known_section s = false ->
  Forall (fun l => hd 0 (clean_line l) <> HASH) body ->
  fold_left read_line body (Some s, d) = (Some s, d).
Proof.
  intros Hk Hb. induction Hb as [|l body Hl Hb IH]; [reflexivity|].
  cbn [fold_left]. rewrite read_line_step.
  destruct (clean_line l) as [|c r]; [exact IH|].
  simpl in Hl. apply N.eqb_neq in Hl. rewrite Hl.
  rewrite !(unknown_section_is s) by (simpl; tauto).
  destruct d. exact IH.
Qed.

End ParserFacts.

(** ** More facts about the pipeline run *)

Module PipelineMore.

Import StripFacts.

Lemma tuple_eqb_eq t1 t2 : tuple_eqb t1 t2 = true <-> t1 = t2.
Proof.
  split.
  - destruct t1, t2. unfold tuple_eqb. cbn.
    intros H. repeat (apply andb_true_iff in H as [H ?]).
    repeat match goal with H : str_eqb _ _ = true |- _ => apply str_eqb_eq in H end.
    subst. reflexivity.
  - intros ->. unfold tuple_eqb. rewrite !str_eqb_refl. reflexivity.
Qed.

Lemma dedup_iff t l : In t (dedup l) <-> In t l.
Proof.
  split; [apply PipelineFacts.dedup_incl|].
  induction l as [|x l IH]; [tauto|].
  simpl. destruct (existsb (tuple_eqb x) l) eqn:E; intros [<-|H].
  - apply existsb_exists in E as [y [Hy Ey]]. apply tuple_eqb_eq in Ey. subst y. auto.
  - auto.
  - left. reflexivity.
  - right. auto.
Qed.

Lemma dedup_nodup l : NoDup (dedup l).
Proof.
  induction l as [|x l IH]; [constructor|].
  simpl. destruct (existsb (tuple_eqb x) l) eqn:E; [exact IH|].
  constructor; [|exact IH]. rewrite dedup_iff. intros Hx.
  assert (existsb (tuple_eqb x) l = true)
    by (apply existsb_exists; exists x; split; [exact Hx|apply tuple_eqb_eq; reflexivity]).
  congruence.
Qed.

Lemma param_row_of_inj t1 t2 : param_row_of t1 = param_row_of t2 -> t1 = t2.
Proof. destruct t1, t2. unfold param_row_of. cbn. intros H. injection H. intros. subst. reflexivity. Qed.

Lemma nodup_map_inj {A B : Type} (f : A -> B) l :
  (forall x y, f x = f y -> x = y) -> NoDup l -> NoDup (map f l).
Proof.
  intros Hf. induction 1 as [|x l Hx Hl IH]; simpl; constructor; [|exact IH].
  intros Hin. apply in_map_iff in Hin as [y [Ey Hy]]. apply Hf in Ey. subst. contradiction.
Qed.

Lemma forall2_in_l {A B : Type} (R : A -> B -> Prop) l1 l2 x :
  Forall2 R l1 l2 -> In x l1 -> exists y, In y l2 /\ R x y.
Proof.
  induction 1 as [|a b l1 l2 Hab H IH]; [intros []|].
  intros [<-|Hx]; [exists b; simpl; auto|].
  destruct (IH Hx) as [y [Hy Ry]]. exists y. simpl. auto.
Qed.

Lemma forall2_in_r {A B : Type} (R : A -> B -> Prop) l1 l2 y :
  Forall2 R l1 l2 -> In y l2 -> exists x, In x l1 /\ R x y.
Proof.
  induction 1 as [|a b l1 l2 Hab H IH]; [intros []|].
  intros [<-|Hy]; [exists a; simpl; auto|].
  destruct (IH Hy) as [x [Hx Rx]]. exists x. simpl. auto.
Qed.

(** A [fold_opt] fails exactly when one of its steps fails, when whether a
    step fails does not depend on the accumulator. *)
Lemma fold_opt_none {A B : Type} (f : A -> B -> option A) (F : B -> Prop) :
  (forall a b, f a b = None <-> F b) -> forall l a, fold_opt f a l = None <-> Exists F l.
Proof.
  intros Hf l. induction l as [|b l IH]; intros a; simpl.
  - split; [discriminate|intros H; inversion H].
  - destruct (f a b) as [a'|] eqn:E.
    + rewrite IH. split; [intros H; right; exact H|].
      intros H. inversion H as [? ? Hb|? ? Hl]; subst; [|exact Hl].
      apply (Hf a) in Hb. congruence.
    + split; [intros _; left; apply (Hf a b), E|reflexivity].
Qed.

Section Run.

Variable nfc : str -> str.
Variables unidecode slug : str -> str.
Variable cat : catalog.
Variable source_map : str -> option str.

(** When the segment [s] of a record with language [lang] makes the run
    fail: it is empty (the reducer indexes it), its reduction normalizes
    to nothing, the language name is missing, or the source map has no
    entry for the slug of the name. *)
Definition segment_fails (lang : option str) (s : str) : Prop :=
  match reduce_segment s with
  | None => True
  | Some seg =>
      normalize_grapheme nfc seg = None \/
      match lang with None => True | Some name => source_map (slug name) = None end
  end.

Definition step_fails (lang : option str) (seg : str) : Prop :=
  normalize_grapheme nfc seg = None \/
  match lang with None => True | Some name => source_map (slug name) = None end.

Lemma resolve_none seg :
  resolve_segment nfc unidecode slug cat seg = None <-> normalize_grapheme nfc seg = None.
Proof.
  unfold resolve_segment. destruct (normalize_grapheme nfc seg); split; congruence.
Qed.

Lemma process_segment_none lang st seg :
  process_segment nfc unidecode slug cat source_map lang st seg = None <->
  step_fails lang seg.
Proof.
  unfold process_segment, step_fails.
  destruct (resolve_segment nfc unidecode slug cat seg) as [[s t]|] eqn:E.
  - assert (normalize_grapheme nfc seg <> None) by (rewrite <- resolve_none; congruence).
    destruct lang as [name|]; [|split; auto].
    destruct (source_map (slug name)); split; try discriminate; try tauto.
    intros [H'|H']; [contradiction|discriminate].
  - apply resolve_none in E. split; auto.
Qed.

Lemma process_record_none st r :
  process_record nfc unidecode slug cat source_map st r = None <->
  Exists (segment_fails (language_name r)) (consonants r ++ vowels r).
Proof.
  unfold process_record. generalize (consonants r ++ vowels r) as L. intros L.
  revert st. induction L as [|s L IH]; intros st.
  - simpl. split; [discriminate|intros H; inversion H].
  - cbn [reduce_all]. destruct (reduce_segment s) as [seg|] eqn:Es.
    + destruct (reduce_all L) as [segs|] eqn:EL.
      * cbn [option_map fold_opt].
        destruct (process_segment nfc unidecode slug cat source_map (language_name r) st seg)
          as [st'|] eqn:Ep.
        -- rewrite IH. split; [intros H; right; exact H|].
           intros H. inversion H as [? ? Hb|? ? Hl]; subst; [|exact Hl].
           unfold segment_fails in Hb. rewrite Es in Hb.
           apply (process_segment_none (language_name r) st seg) in Hb. congruence.
        -- split; [intros _; left|reflexivity].
           unfold segment_fails. rewrite Es.
           apply (process_segment_none (language_name r) st seg), Ep.
      * cbn [option_map]. split; [intros _|reflexivity]. right.
        apply (IH st). reflexivity.
    + cbn [option_map]. split; [intros _|reflexivity]. left. unfold segment_fails.
      rewrite Es. exact I.
Qed.

(** The value rows and the segment tuples of a run go together: the i-th
    tuple is the resolution of the i-th row's value and carries its
    parameter id. *)
Definition row_of_tuple (v : value_row) (t : param_tuple) : Prop :=
  v_Parameter_ID v = t_par_id t /\
  exists s, resolve_segment nfc unidecode slug cat (v_Value v) = Some (s, t).

Definition aligned (st : run_state) : Prop :=
  Forall2 row_of_tuple (values st) (segments st).

Lemma process_segment_aligned lang st seg st' :
  process_segment nfc unidecode slug cat source_map lang st seg = Some st' ->
  aligned st -> aligned st'.
Proof.
  unfold process_segment.
  destruct (resolve_segment nfc unidecode slug cat seg) as [[s t]|] eqn:E; [|discriminate].
  destruct lang as [name|]; [|discriminate].
  destruct (source_map (slug name)); [|discriminate].
  intros H. injection H as <-. unfold aligned. cbn. intros Ha.
  apply Forall2_app; [exact Ha|]. constructor; [|constructor].
  split; [reflexivity|]. exists s. exact E.
Qed.

Lemma fold_records_aligned records : forall st st',
  fold_opt (process_record nfc unidecode slug cat source_map) st records = Some st' ->
  aligned st -> aligned st'.
Proof.
  induction records as [|r records IH]; intros st st' H Ha.
  - injection H as <-. exact Ha.
  - cbn [fold_opt] in H.
    destruct (process_record nfc unidecode slug cat source_map st r) as [st1|] eqn:E;
      [|discriminate H].
    apply (IH st1 st' H). unfold process_record in E.
    destruct (reduce_all (consonants r ++ vowels r)) as [l|]; [|discriminate E].
    clear H. revert st Ha E. induction l as [|seg l IHl]; intros st Ha E.
    + injection E as <-. exact Ha.
    + cbn [fold_opt] in E.
      destruct (process_segment nfc unidecode slug cat source_map (language_name r) st seg)
        as [st2|] eqn:E2; [|discriminate E].
      exact (IHl st2 (process_segment_aligned _ _ _ _ E2 Ha) E).
Qed.

Lemma resolve_normalized seg s t :
  resolve_segment nfc unidecode slug cat seg = Some (s, t) ->
  normalize_grapheme nfc seg = Some (t_normalized t).
Proof.
  unfold resolve_segment. destruct (normalize_grapheme nfc seg) as [nm|]; [|discriminate].
  intros H. injection H as _ <-. destruct (lookup_sound cat seg nm); reflexivity.
Qed.

(** The fields every value row of a record with language [lang] gets. *)
Definition row_fields (lang : option str) (v : value_row) : Prop :=
  v_Marginal v = false /\ v_Catalog v = u "jipa" /\
  v_Contribution_ID v = v_Language_ID v /\
  exists name src, lang = Some name /\ v_Language_ID v = slug name /\
    source_map (slug name) = Some src /\ v_Source v = [src].

Lemma fold_segments_fields lang segs : forall st st',
  fold_opt (process_segment nfc unidecode slug cat source_map lang) st segs = Some st' ->
  forall v, In v (values st') -> In v (values st) \/ row_fields lang v.
Proof.
  induction segs as [|seg segs IH]; intros st st' H v Hv.
  - injection H as <-. auto.
  - cbn [fold_opt] in H.
    destruct (process_segment nfc unidecode slug cat source_map lang st seg) as [st1|] eqn:E;
      [|discriminate H].
    destruct (IH st1 st' H v Hv) as [Hv1|]; [|auto].
    unfold process_segment in E.
    destruct (resolve_segment nfc unidecode slug cat seg) as [[s t]|]; [|discriminate E].
    destruct lang as [name|]; [|discriminate E].
    destruct (source_map (slug name)) as [src|] eqn:Es; [|discriminate E].
    injection E as <-. cbn in Hv1. apply in_app_or in Hv1 as [Hv1|[<-|[]]]; [auto|].
    right. unfold row_fields. cbn. repeat split. exists name, src. auto.
Qed.

Lemma fold_records_fields records : forall st st',
  fold_opt (process_record nfc unidecode slug cat source_map) st records = Some st' ->
  forall v, In v (values st') ->
    In v (values st) \/ exists r, In r records /\ row_fields (language_name r) v.
Proof.
  induction records as [|r records IH]; intros st st' H v Hv.
  - injection H as <-. auto.
  - cbn [fold_opt] in H.
    destruct (process_record nfc unidecode slug cat source_map st r) as [st1|] eqn:E;
      [|discriminate H].
    destruct (IH st1 st' H v Hv) as [Hv1|[r' [Hr' Hf]]]; [|right; exists r'; simpl; auto].
    unfold process_record in E.
    destruct (reduce_all (consonants r ++ vowels r)) as [l|]; [|discriminate E].
    destruct (fold_segments_fields _ l st st1 E v Hv1) as [|Hf]; [auto|].
    right. exists r. simpl. auto.
Qed.


Lemma dedup_nodup_id l : NoDup l -> dedup l = l.
Proof.
  induction 1 as [|x l Hx Hl IH]; [reflexivity|].
  simpl. destruct (existsb (tuple_eqb x) l) eqn:E.
  - apply existsb_exists in E as [y [Hy Ey]]. apply tuple_eqb_eq in Ey. subst y. contradiction.
  - rewrite IH. reflexivity.
Qed.

Lemma map_fst_combine {A B : Type} (a : list A) (b : list B) :
  length a = length b -> map fst (combine a b) = a.
Proof.
  revert b. induction a as [|x a IH]; intros [|y b] H; try discriminate H; [reflexivity|].
  simpl. f_equal. apply IH. simpl in H. lia.
Qed.

Lemma forall2_map_eq {A B C : Type} (R : A -> B -> Prop) (f : A -> C) (g : B -> C) l1 l2 :
  (forall a b, R a b -> f a = g b) -> Forall2 R l1 l2 -> map f l1 = map g l2.
Proof. intros Hfg. induction 1; simpl; f_equal; auto. Qed.

(** A successful run: the parameter rows come from [set] of the segment
    tuples, one tuple per value row, whose [normalized] is the
    normalization of the row's [Value]. *)
Lemma make_cldf_tuples records vals params :
  make_cldf nfc unidecode slug cat source_map records = Some (vals, params) ->
  exists ts, params = map param_row_of (dedup ts) /\
    Forall2 (fun v t => normalize_grapheme nfc (v_Value v) = Some (t_normalized t)) vals ts.
Proof.
  unfold make_cldf.
  destruct (fold_opt (process_record nfc unidecode slug cat source_map) init_state records)
    as [st|] eqn:E; [|discriminate].
  intros H. injection H as <- <-. exists (segments st). split; [reflexivity|].
  assert (Ha : aligned st) by (apply (fold_records_aligned records init_state st E); constructor).
  unfold aligned in Ha. induction Ha as [|v t vs ts [_ [s Hr]] _ IH]; constructor; [|exact IH].
  exact (resolve_normalized _ _ _ Hr).
Qed.

End Run.

End PipelineMore.

(** ** Facts about the language table *)

Module LanguageFacts.

Import StripFacts.

Section Dict.

Variables K V : Type.
Variable eqb : K -> K -> bool.
Hypothesis eqb_eq : forall a b, eqb a b = true <-> a = b.

Lemma dict_get_set (d : list (K * V)) (k : K) (v : V) (k' : K) :
  dict_get eqb (dict_set eqb d k v) k' = if eqb k' k then Some v else dict_get eqb d k'.
Proof.
  induction d as [|[k0 v0] d IH]; simpl.
  - destruct (eqb k' k); reflexivity.
  - destruct (eqb k k0) eqn:E.
    + apply eqb_eq in E. subst k0. simpl. destruct (eqb k' k); reflexivity.
    + simpl. destruct (eqb k' k0) eqn:E'; [|apply IH].
      apply eqb_eq in E'. subst k0. destruct (eqb k' k) eqn:E''; [|reflexivity].
      apply eqb_eq in E''. subst k'. rewrite (proj2 (eqb_eq k k) eq_refl) in E.
      discriminate E.
Qed.

Lemma dict_get_update (d upd : list (K * V)) (k : K) :
  dict_get eqb (dict_update eqb d upd) k =
  fold_left (fun acc kv => if eqb k (fst kv) then Some (snd kv) else acc) upd (dict_get eqb d k).
Proof.
  unfold dict_update. revert d. induction upd as [|[k0 v0] upd IH]; intros d; [reflexivity|].
  cbn [fold_left]. rewrite IH. cbn [fst snd]. rewrite dict_get_set. reflexivity.
Qed.

End Dict.

Lemma cell_eqb_eq a b : cell_eqb a b = true <-> a = b.
Proof.
  destruct a as [x|], b as [y|]; simpl; try (split; congruence).
  rewrite str_eqb_eq. split; congruence.
Qed.

(** The columns the Glottolog update writes besides [Glottocode]. *)
Definition added_columns : list str :=
  [u "Family_Glottocode"; u "Family_Name"; u "Latitude"; u "Longitude";
   u "Macroarea"; u "Glottolog_Name"].

Lemma enrich_row_keeps glottolog r r' k :
  enrich_row glottolog r = Some r' -> ~ In k added_columns ->
  dict_get str_eqb r' k = dict_get str_eqb r k.
Proof.
  unfold enrich_row. destruct (dict_get str_eqb r (u "Glottocode")) as [[code|]|] eqn:Eg;
    [|intros H; injection H as <-; reflexivity|discriminate].
  destruct (nonempty code); [|intros H; injection H as <-; reflexivity].
  destruct (glottolog code) as [lang|]; [|discriminate].
  intros H Hk. injection H as <-.
  rewrite !(dict_get_set _ _ str_eqb str_eqb_eq).
  assert (Hne : forall n, In n added_columns -> str_eqb k n = false).
  { intros n Hn. destruct (str_eqb k n) eqn:E; [|reflexivity].
    apply str_eqb_eq in E. subst n. contradiction. }
  destruct (str_eqb k (u "Glottocode")) eqn:E.
  - apply str_eqb_eq in E. subst k. rewrite Eg. reflexivity.
  - rewrite !Hne by (unfold added_columns; cbn [In];
                     repeat (first [left; reflexivity | right])).
    reflexivity.
Qed.

Lemma load_languages_keeps glottolog rows langs :
  load_languages glottolog rows = Some langs ->
  Forall2 (fun r r' => forall k, ~ In k added_columns ->
             dict_get str_eqb r' k = dict_get str_eqb r k) rows langs.
Proof.
  revert langs. induction rows as [|r rows IH]; intros langs H.
  - injection H as <-. constructor.
  - cbn [load_languages] in H. destruct (enrich_row glottolog r) as [r'|] eqn:E;
      [|discriminate H].
    destruct (load_languages glottolog rows) as [ls|]; [|discriminate H].
    injection H as <-. constructor; [|apply IH; reflexivity].
    intros k Hk. exact (enrich_row_keeps glottolog r r' k E Hk).
Qed.

Lemma id_source_not_added : ~ In (u "ID") added_columns /\ ~ In (u "Source") added_columns.
Proof.
  split; unfold added_columns; simpl; intros H;
    repeat destruct H as [H|H]; try discriminate H; exact H.
Qed.

Lemma build_source_map_same acc rows langs :
  Forall2 (fun r r' => dict_get str_eqb r' (u "ID") = dict_get str_eqb r (u "ID") /\
                       dict_get str_eqb r' (u "Source") = dict_get str_eqb r (u "Source"))
    rows langs ->
  build_source_map acc langs = build_source_map acc rows.
Proof.
  intros H. revert acc. induction H as [|r r' rows langs [E1 E2] H IH]; intros acc;
    [reflexivity|].
  cbn [build_source_map]. rewrite E1, E2.
  destruct (dict_get str_eqb r (u "ID")), (dict_get str_eqb r (u "Source")); auto.
Qed.

(** The Source of the last row whose ID is [k], after [o]. *)
Definition last_source (o : option cell) (k : cell) (rows : list row) : option cell :=
  fold_left (fun acc r =>
    match dict_get str_eqb r (u "ID") with
    | Some k' => if cell_eqb k k' then dict_get str_eqb r (u "Source") else acc
    | None => acc
    end) rows o.

Lemma build_source_map_get acc rows sm k :
  build_source_map acc rows = Some sm ->
  dict_get cell_eqb sm k = last_source (dict_get cell_eqb acc k) k rows.
Proof.
  revert acc. induction rows as [|r rows IH]; intros acc H.
  - injection H as <-. reflexivity.
  - cbn [build_source_map] in H. cbn [last_source fold_left]. fold (last_source).
    destruct (dict_get str_eqb r (u "ID")) as [k'|] eqn:Ei; [|discriminate H].
    destruct (dict_get str_eqb r (u "Source")) as [v|] eqn:Es; [|discriminate H].
    rewrite (IH _ H). rewrite (dict_get_set _ _ cell_eqb cell_eqb_eq). reflexivity.
Qed.

Lemma build_source_map_none acc rows :
  build_source_map acc rows = None <->
  Exists (fun r => dict_get str_eqb r (u "ID") = None \/
                   dict_get str_eqb r (u "Source") = None) rows.
Proof.
  revert acc. induction rows as [|r rows IH]; intros acc.
  - simpl. split; [discriminate|intros H; inversion H].
  - cbn [build_source_map].
    destruct (dict_get str_eqb r (u "ID")) as [k'|] eqn:Ei,
      (dict_get str_eqb r (u "Source")) as [v|] eqn:Es.
    + rewrite IH. split; [intros H; right; exact H|].
      intros H. inversion H as [? ? [Hb|Hb]|? ? Hl]; subst; [congruence|congruence|exact Hl].
    + split; [intros _; left; right; exact Es|reflexivity].
    + split; [intros _; left; left; exact Ei|reflexivity].
    + split; [intros _; left; left; exact Ei|reflexivity].
Qed.

End LanguageFacts.

(** * The claims *)

(** C2 (counterexample): normalizing twice is not normalizing once: the
    NFC form of ["((a))"] is itself, its first normalization strips one
    pair to ["(a)"], and the second strips again to ["a"]. *)
Lemma normalize_grapheme_not_idempotent :
  normalize_grapheme nfc_eval (u "((a))") = Some (u "(a)") /\
  normalize_grapheme nfc_eval (u "(a)") = Some (u "a").
Proof.
  exact (NormalizerFacts.normalize_twice_laws nfc_eval NormalizerFacts.nfc_eval_laws).
Qed.

(** C2 (amended): if [normalize_grapheme x] returns [y], then normalizing
    [y] again returns [y] exactly when [y] is non-empty, is not bounded by a
    ['(' ... ')'] pair and is not bounded by a ['[' ... ']'] pair. *)
Theorem normalize_grapheme_idempotent_iff nfc x y :
  nfc_laws nfc -> normalize_grapheme nfc x = Some y ->
  normalize_grapheme nfc y = Some y <->
  bounded_by LPAR RPAR y = Some false /\ bounded_by LBRACK RBRACK y = Some false.
Proof.
  intros L H. apply NormalizerFacts.normalize_fixed_iff.
  exact (NormalizerFacts.normalize_nfc nfc x y L H).
Qed.

Lemma normalize_grapheme_idempotent_iff_witness :
  normalize_grapheme nfc_eval (u "[p]") = Some (u "p") /\
  (normalize_grapheme nfc_eval (u "p") = Some (u "p") <->
   bounded_by LPAR RPAR (u "p") = Some false /\ bounded_by LBRACK RBRACK (u "p") = Some false).
Proof.
  split; [reflexivity|].
  apply (normalize_grapheme_idempotent_iff nfc_eval (u "[p]") (u "p")).
  - exact NormalizerFacts.nfc_eval_laws.
  - reflexivity.
Defined.

(** C3: [compute_id] is injective: two strings get the same identifier
    exactly when they have the same code points, whatever [unidecode] and
    [slug] do, since the code-point suffix after the last ['_'] determines
    the string. *)
Theorem compute_id_injective unidecode slug x y :
  compute_id unidecode slug x = compute_id unidecode slug y <-> x = y.
Proof.
  split; [|intros ->; reflexivity].
  unfold compute_id. intros E.
  apply EncoderFacts.last_sep in E as [_ E];
    [| apply EncoderFacts.unicode_repr_no_underscore
     | apply EncoderFacts.unicode_repr_no_underscore].
  exact (EncoderFacts.unicode_repr_inj x y E).
Qed.

(** C10 (counterexample): [normalize_grapheme] does not fail on ["[]"]: the
    bracket check is its last step, so it returns the empty string. *)
Lemma normalize_grapheme_brackets_empty :
  normalize_grapheme nfc_eval (u "[]") = Some [].
Proof. reflexivity. Qed.

(** C10 (amended): [normalize_grapheme] fails exactly when the NFC form of
    its argument is empty or is ["()"]; so it fails on [""] and ["()"], and
    returns [""] on ["[]"]. *)
Theorem normalize_grapheme_partial nfc :
  nfc_laws nfc ->
  (forall x, normalize_grapheme nfc x = None <-> nfc x = [] \/ nfc x = u "()") /\
  normalize_grapheme nfc [] = None /\
  normalize_grapheme nfc (u "()") = None /\
  normalize_grapheme nfc (u "[]") = Some [].
Proof.
  intros L. split; [exact (NormalizerFacts.normalize_none_iff nfc)|].
  unfold normalize_grapheme.
  rewrite (nfc_low nfc L []), (nfc_low nfc L (u "()")), (nfc_low nfc L (u "[]"))
    by reflexivity.
  repeat split.
Qed.

Lemma normalize_grapheme_partial_witness :
  nfc_laws nfc_eval /\
  ((forall x, normalize_grapheme nfc_eval x = None <-> nfc_eval x = [] \/ nfc_eval x = u "()") /\
   normalize_grapheme nfc_eval [] = None /\
   normalize_grapheme nfc_eval (u "()") = None /\
   normalize_grapheme nfc_eval (u "[]") = Some []).
Proof.
  split; [exact NormalizerFacts.nfc_eval_laws|].
  apply (normalize_grapheme_partial nfc_eval). exact NormalizerFacts.nfc_eval_laws.
Defined.

(** C7 (counterexample): the splitter splits a comma that an enclosing
    pair of parentheses encloses, when a nested [(] follows it before the
    next [)]: ["(a, (b))"] gives ["(a"] and ["(b))"]. *)
Lemma splitter_nested_parens :
  _splitter (u "(a, (b))") = [u "(a"; u "(b))"].
Proof. reflexivity. Qed.

(** C7 (amended): the splitter splits the line at exactly those commas
    whose following text does not reach a [)] before a [(] (the commas of
    [SplitterFacts.split_at_commas]), trims whitespace from each piece and
    drops the empty ones; in particular ["p, t, k (ʔ), m"] gives ["p"],
    ["t"], ["k (ʔ)"], ["m"]. *)
Theorem splitter_splits_at_unclosed_commas :
  (forall text, _splitter text = SplitterFacts.splitter_spec text) /\
  _splitter (u "p, t, k (" ++ [660] ++ u "), m") =
    [u "p"; u "t"; u "k (" ++ [660] ++ u ")"; u "m"].
Proof.
  split; [exact SplitterFacts.splitter_refines|reflexivity].
Qed.

(** C8: allophone reduction.  A non-empty segment whose first character is
    [(] and last is [)] is kept as it is; any other is passed through
    [re.sub(r"\([^)]*\)", "", _)], whose result has no [(] followed by a
    [)], and which removes a span [( ... )] (no [)] inside) after a prefix
    with no [(] while keeping that prefix.  So ["(ʔ)"] stays ["(ʔ)"] and
    ["k(ʰ)"] becomes ["k"] (see the witness). *)
Theorem reduce_segment_allophones s :
  s <> [] ->
  (hd 0 s = LPAR /\ last_char s = RPAR -> reduce_segment s = Some s) /\
  (~ (hd 0 s = LPAR /\ last_char s = RPAR) ->
     reduce_segment s = Some (sub_parens s) /\
     ReducerFacts.no_span (sub_parens s) = true /\
     (forall a m b, s = a ++ LPAR :: m ++ RPAR :: b ->
        ReducerFacts.has LPAR a = false -> ReducerFacts.has RPAR m = false ->
        sub_parens s = a ++ sub_parens b)).
Proof.
  intros Hs. destruct s as [|h t]; [contradiction|].
  unfold reduce_segment, bounded_by. cbn [hd].
  split.
  - intros [-> Hl]. rewrite N.eqb_refl, Hl, N.eqb_refl. reflexivity.
  - intros Hn.
    replace ((h =? LPAR) && (last_char (h :: t) =? RPAR)) with false.
    + split; [reflexivity|]. split.
      * apply ReducerFacts.sub_parens_no_span. discriminate.
      * intros a m b -> Ha Hm. apply ReducerFacts.sub_parens_span; assumption.
    + destruct (N.eqb_spec h LPAR), (N.eqb_spec (last_char (h :: t)) RPAR); tauto.
Qed.

Lemma reduce_segment_allophones_witness :
  reduce_segment ([LPAR; 660; RPAR]) = Some [LPAR; 660; RPAR] /\
  reduce_segment (u "k(" ++ [688] ++ u ")") = Some (u "k").
Proof.
  split.
  - apply (reduce_segment_allophones [LPAR; 660; RPAR]);
      [discriminate | split; reflexivity].
  - destruct (reduce_segment_allophones (u "k(" ++ [688] ++ u ")")) as [_ H];
      [discriminate|].
    destruct H as [-> _]; [|reflexivity].
    intros [H _]. discriminate H.
Defined.

(** C1: the resolver's fallback order.  Once the segment is normalized, the
    sound is [lookup_sound]: the grapheme map is asked for the raw segment
    first, then for the normalized form, and the empty key is used when
    both miss; the key is looked up in the sound table, and when that gives
    [UnknownSound] the normalized form is looked up there directly.  In
    particular, when the raw lookup misses and the normalized lookup hits a
    key the table knows, the segment resolves through it to a [BIPA_] row. *)
Theorem resolve_segment_fallback_order nfc unidecode slug cat segment normalized :
  normalize_grapheme nfc segment = Some normalized ->
  (exists t, resolve_segment nfc unidecode slug cat segment =
             Some (lookup_sound cat segment normalized, t)) /\
  (forall k, grapheme_map cat segment = Some k -> bipa cat k <> UnknownSound ->
     lookup_sound cat segment normalized = bipa cat k) /\
  (forall k, grapheme_map cat segment = None -> grapheme_map cat normalized = Some k ->
     bipa cat k <> UnknownSound -> lookup_sound cat segment normalized = bipa cat k) /\
  (grapheme_map cat segment = None -> grapheme_map cat normalized = None ->
     bipa cat [] <> UnknownSound -> lookup_sound cat segment normalized = bipa cat []) /\
  (forall k, (grapheme_map cat segment = Some k \/
              (grapheme_map cat segment = None /\ grapheme_map cat normalized = Some k) \/
              (grapheme_map cat segment = None /\ grapheme_map cat normalized = None /\ k = [])) ->
     bipa cat k = UnknownSound -> lookup_sound cat segment normalized = bipa cat normalized) /\
  (forall k g n, grapheme_map cat segment = None -> grapheme_map cat normalized = Some k ->
     bipa cat k = Sound g n ->
     resolve_segment nfc unidecode slug cat segment =
       Some (Sound g n, {| t_par_id := u "BIPA_" ++ compute_id unidecode slug normalized;
                           t_normalized := normalized; t_bipa := g; t_desc := n |})).
Proof.
  intros Hn.
  assert (Hr : resolve_segment nfc unidecode slug cat segment =
    Some (lookup_sound cat segment normalized,
      match lookup_sound cat segment normalized with
      | UnknownSound =>
          {| t_par_id := u "UNK_" ++ compute_id unidecode slug normalized;
             t_normalized := normalized; t_bipa := []; t_desc := [] |}
      | Sound g n =>
          {| t_par_id := u "BIPA_" ++ compute_id unidecode slug normalized;
             t_normalized := normalized; t_bipa := g; t_desc := n |}
      end))
    by (unfold resolve_segment; rewrite Hn; reflexivity).
  split; [eexists; exact Hr|].
  unfold lookup_sound.
  split; [intros k E Hk; rewrite E; destruct (bipa cat k); congruence|].
  split; [intros k E1 E2 Hk; rewrite E1, E2; destruct (bipa cat k); congruence|].
  split; [intros E1 E2 Hk; rewrite E1, E2; destruct (bipa cat []); congruence|].
  split.
  - intros k [E|[[E1 E2]|[E1 [E2 ->]]]] Hk;
      [rewrite E | rewrite E1, E2 | rewrite E1, E2]; rewrite Hk; reflexivity.
  - intros k g n E1 E2 Hk. rewrite Hr. unfold lookup_sound.
    rewrite E1, E2, Hk. reflexivity.
Qed.

Lemma resolve_segment_fallback_order_witness :
  normalize_grapheme nfc_eval (u "[p]") = Some (u "p") /\
  resolve_segment nfc_eval unidecode_eval slug_eval catalog_p (u "[p]") =
    Some (Sound (u "p") (u "voiceless bilabial stop consonant"),
          {| t_par_id := u "BIPA_" ++ compute_id unidecode_eval slug_eval (u "p");
             t_normalized := u "p"; t_bipa := u "p";
             t_desc := u "voiceless bilabial stop consonant" |}).
Proof.
  split; [reflexivity|].
  destruct (resolve_segment_fallback_order nfc_eval unidecode_eval slug_eval catalog_p
              (u "[p]") (u "p") eq_refl) as [_ [_ [_ [_ [_ H]]]]].
  apply (H (u "p")); reflexivity.
Defined.

(** C4: [par_id] is a function of the normalized form and the outcome: it
    is the outcome's prefix ([BIPA_] or [UNK_]) followed by [compute_id] of
    the normalized form, so two resolutions with the same normalized form
    and the same outcome give the same [par_id]; and every value row and
    every parameter row of a run carries the [par_id] of such a
    resolution. *)
Theorem par_id_of_normalized_and_outcome nfc unidecode slug cat source_map :
  (forall seg s t, resolve_segment nfc unidecode slug cat seg = Some (s, t) ->
     t_par_id t = outcome_prefix s ++ compute_id unidecode slug (t_normalized t)) /\
  (forall seg1 seg2 s1 s2 t1 t2,
     resolve_segment nfc unidecode slug cat seg1 = Some (s1, t1) ->
     resolve_segment nfc unidecode slug cat seg2 = Some (s2, t2) ->
     t_normalized t1 = t_normalized t2 -> is_unknown s1 = is_unknown s2 ->
     t_par_id t1 = t_par_id t2) /\
  (forall records vals params,
     make_cldf nfc unidecode slug cat source_map records = Some (vals, params) ->
     (forall v, In v vals -> exists s t,
        resolve_segment nfc unidecode slug cat (v_Value v) = Some (s, t) /\
        v_Parameter_ID v = t_par_id t) /\
     (forall p, In p params -> exists seg s t,
        resolve_segment nfc unidecode slug cat seg = Some (s, t) /\ p = param_row_of t)).
Proof.
  assert (Hpid : forall seg s t, resolve_segment nfc unidecode slug cat seg = Some (s, t) ->
     t_par_id t = outcome_prefix s ++ compute_id unidecode slug (t_normalized t)).
  { intros seg s t H. unfold resolve_segment in H.
    destruct (normalize_grapheme nfc seg) as [nm|]; [|discriminate H].
    injection H as <- <-. destruct (lookup_sound cat seg nm); reflexivity. }
  split; [exact Hpid|]. split.
  - intros seg1 seg2 s1 s2 t1 t2 H1 H2 En Eo.
    rewrite (Hpid _ _ _ H1), (Hpid _ _ _ H2), En.
    destruct s1, s2; try discriminate Eo; reflexivity.
  - intros records vals params H. split.
    + exact (PipelineFacts.make_cldf_values_resolved nfc unidecode slug cat source_map
               records vals params H).
    + destruct (PipelineFacts.make_cldf_run nfc unidecode slug cat source_map
                  records vals params H) as [Ls [_ [_ Hp]]].
      intros p Hin. destruct (Hp p Hin) as [t [Ep [seg [s Ht]]]].
      exists seg, s, t. split; assumption.
Qed.

Lemma par_id_of_normalized_and_outcome_witness :
  resolve_segment nfc_eval unidecode_eval slug_eval catalog_p (u "[p]") =
    Some (Sound (u "p") (u "voiceless bilabial stop consonant"),
          {| t_par_id := u "BIPA_p_u0070"; t_normalized := u "p"; t_bipa := u "p";
             t_desc := u "voiceless bilabial stop consonant" |}) /\
  resolve_segment nfc_eval unidecode_eval slug_eval catalog_p (u "(p)") =
    Some (Sound (u "p") (u "voiceless bilabial stop consonant"),
          {| t_par_id := u "BIPA_p_u0070"; t_normalized := u "p"; t_bipa := u "p";
             t_desc := u "voiceless bilabial stop consonant" |}) /\
  u "BIPA_p_u0070" = u "BIPA_p_u0070".
Proof.
  split; [reflexivity|]. split; [reflexivity|].
  apply (proj1 (proj2 (par_id_of_normalized_and_outcome nfc_eval unidecode_eval slug_eval
           catalog_p source_map_eval)) (u "[p]") (u "(p)")
           (Sound (u "p") (u "voiceless bilabial stop consonant"))
           (Sound (u "p") (u "voiceless bilabial stop consonant"))
           {| t_par_id := u "BIPA_p_u0070"; t_normalized := u "p"; t_bipa := u "p";
              t_desc := u "voiceless bilabial stop consonant" |}
           {| t_par_id := u "BIPA_p_u0070"; t_normalized := u "p"; t_bipa := u "p";
              t_desc := u "voiceless bilabial stop consonant" |});
    reflexivity.
Defined.

(** C5 (code defect): the parameter table can hold two rows with the same
    ID.  A record lists ["p"] and the marginal ["(p)"]; both normalize to
    ["p"], so both get [par_id] ["BIPA_p_u0070"], but the grapheme map is
    asked for the raw ["(p)"] first and sends it to ["pʰ"], while ["p"]
    resolves to ["p"]: the two tuples differ, [set(segments)] keeps both,
    and the two rows share their ID. *)
Theorem parameter_table_duplicate_id :
  exists vals params,
    make_cldf nfc_eval unidecode_eval slug_eval catalog_marked source_map_eval
      [record_of "TestLang" [u "p"; u "(p)"] []] = Some (vals, params) /\
    map p_ID params = [u "BIPA_p_u0070"; u "BIPA_p_u0070"] /\
    map p_BIPA params = [u "p"; [112; 688]].
Proof.
  do 2 eexists. split; [cbv; reflexivity|]. split; cbv; reflexivity.
Qed.

(** C6 (counterexample): the [Value] of a value row is the reduced segment,
    not the raw one: the raw ["k(ʰ)"] gives the value ["k"]. *)
Lemma value_not_raw_segment :
  exists vals params,
    make_cldf nfc_eval unidecode_eval slug_eval catalog_self source_map_eval
      [record_of "TestLang" [u "k(" ++ [688] ++ u ")"] []] = Some (vals, params) /\
    map v_Value vals = [u "k"].
Proof.
  do 2 eexists. split; [cbv; reflexivity|]. cbv; reflexivity.
Qed.

(** C6 (amended): in a run, the [Value] of the i-th value row is the i-th
    segment of the records' [consonants + vowels] after allophone reduction
    (kept whole when wrapped in one pair of parentheses, its parenthesized
    spans removed otherwise). *)
Theorem value_is_reduced_segment nfc unidecode slug cat source_map records vals params :
  make_cldf nfc unidecode slug cat source_map records = Some (vals, params) ->
  Forall2 (fun raw v => reduce_segment raw = Some (v_Value v))
    (flat_map (fun r => consonants r ++ vowels r) records) vals.
Proof.
  intros H.
  destruct (PipelineFacts.make_cldf_run nfc unidecode slug cat source_map
              records vals params H) as [Ls [HF [Hv _]]].
  assert (Hval : map v_Value vals = concat Ls).
  { transitivity (map snd (map PipelineFacts.id_value vals));
      [rewrite map_map; reflexivity|].
    rewrite Hv. apply PipelineFacts.map_snd_combine. apply length_seq. }
  assert (Hred : Forall2 (fun s s' => reduce_segment s = Some s')
                   (flat_map (fun r => consonants r ++ vowels r) records) (concat Ls)).
  { clear Hv Hval H. induction HF as [|r l records Ls Hr HF IH]; [constructor|].
    simpl. apply Forall2_app; [|exact IH].
    apply PipelineFacts.reduce_all_forall2, Hr. }
  rewrite <- Hval in Hred. clear -Hred.
  remember (flat_map (fun r => consonants r ++ vowels r) records) as raws. clear Heqraws.
  revert vals Hred. induction raws as [|x raws IH]; intros [|v vals] Hred;
    inversion Hred; subst; constructor; auto.
Qed.

Lemma value_is_reduced_segment_witness :
  Forall2 (fun raw v => reduce_segment raw = Some (v_Value v))
    [u "k(" ++ [688] ++ u ")"]
    [{| v_ID := 1; v_Language_ID := u "testlang"; v_Marginal := false;
        v_Parameter_ID := u "BIPA_k_u006B"; v_Value := u "k";
        v_Contribution_ID := u "testlang"; v_Source := [u "TestSource2020"];
        v_Catalog := u "jipa" |}].
Proof.
  apply (value_is_reduced_segment nfc_eval unidecode_eval slug_eval catalog_self
           source_map_eval [record_of "TestLang" [u "k(" ++ [688] ++ u ")"] []] _
           [{| p_ID := u "BIPA_k_u006B"; p_Name := u "k"; p_BIPA := u "k";
               p_Description := u "k" |}]).
  vm_compute. reflexivity.
Defined.

(** C9: value row IDs come from one counter that starts at 1 and grows by
    one per segment occurrence, over the records in order and, within a
    record, over its consonants and then its vowels: the i-th occurrence
    (after reduction) gets ID i.  Consequently, a single record with three
    consonants and three vowels that all resolve, whose six normalized
    forms (the normalization of each reduced segment) are distinct, gives
    exactly 6 value rows with IDs 1 to 6 and exactly 6 parameter rows; for
    instance consonants ["p"], ["t"], ["k"] and vowels ["a"], ["i"], ["u"]
    with a catalog resolving each to itself. *)
Theorem value_ids_sequential :
  (forall nfc unidecode slug cat source_map records vals params,
     make_cldf nfc unidecode slug cat source_map records = Some (vals, params) ->
     exists Ls,
       Forall2 (fun r l => reduce_all (consonants r ++ vowels r) = Some l) records Ls /\
       map (fun v => (v_ID v, v_Value v)) vals =
         combine (seq 1 (length (concat Ls))) (concat Ls)) /\
  (forall nfc unidecode slug cat source_map r vals params,
     length (consonants r) = 3%nat -> length (vowels r) = 3%nat ->
     make_cldf nfc unidecode slug cat source_map [r] = Some (vals, params) ->
     NoDup (map (fun s => match reduce_segment s with
                          | Some s' => normalize_grapheme nfc s'
                          | None => None
                          end) (consonants r ++ vowels r)) ->
     length vals = 6%nat /\ map v_ID vals = [1; 2; 3; 4; 5; 6]%nat /\
     length params = 6%nat) /\
  (exists vals params,
     make_cldf nfc_eval unidecode_eval slug_eval catalog_self source_map_eval
       [record_of "TestLang" [u "p"; u "t"; u "k"] [u "a"; u "i"; u "u"]] =
       Some (vals, params) /\
     map v_ID vals = [1; 2; 3; 4; 5; 6]%nat /\
     map v_Value vals = [u "p"; u "t"; u "k"; u "a"; u "i"; u "u"] /\
     length params = 6%nat).
Proof.
  split; [|split].
  - intros nfc unidecode slug cat source_map records vals params H.
    destruct (PipelineFacts.make_cldf_run nfc unidecode slug cat source_map
                records vals params H) as [Ls [HF [Hv _]]].
    exists Ls. split; [exact HF|exact Hv].
  - intros nfc unidecode slug cat source_map r vals params Hc Hvw H Hnd.
    destruct (PipelineFacts.make_cldf_run nfc unidecode slug cat source_map
                [r] vals params H) as [Ls [HF [Hv _]]].
    inversion HF as [|r' l rs Ls' Hl HF' E1 E2]; subst.
    inversion HF'; subst. cbn [concat] in Hv. rewrite app_nil_r in Hv.
    pose proof (PipelineFacts.reduce_all_forall2 _ _ Hl) as Hred.
    assert (Hlen : length l = 6%nat)
      by (rewrite <- (Forall2_length Hred), length_app, Hc, Hvw; reflexivity).
    assert (Hids : map v_ID vals = seq 1 (length l)).
    { replace (map v_ID vals) with (map fst (map PipelineFacts.id_value vals))
        by (rewrite map_map; reflexivity).
      rewrite Hv. apply PipelineMore.map_fst_combine. apply length_seq. }
    assert (Hvals : map v_Value vals = l).
    { replace (map v_Value vals) with (map snd (map PipelineFacts.id_value vals))
        by (rewrite map_map; reflexivity).
      rewrite Hv.
      apply PipelineFacts.map_snd_combine. apply length_seq. }
    assert (Hn : length vals = 6%nat) by (rewrite <- (length_map v_ID), Hids, length_seq; exact Hlen).
    split; [exact Hn|]. split; [rewrite Hids, Hlen; reflexivity|].
    destruct (PipelineMore.make_cldf_tuples nfc unidecode slug cat source_map
                [r] vals params H) as [ts [Hp Hts]].
    assert (Hmap : map (fun s => match reduce_segment s with
                                 | Some s' => normalize_grapheme nfc s'
                                 | None => None
                                 end) (consonants r ++ vowels r) =
                   map (fun t => Some (t_normalized t)) ts).
    { rewrite (PipelineMore.forall2_map_eq _ _ (normalize_grapheme nfc) _ _
                 (fun a b (Hab : reduce_segment a = Some b) =>
                    f_equal (fun o => match o with
                                      | Some s' => normalize_grapheme nfc s'
                                      | None => None
                                      end) Hab) Hred).
      rewrite <- Hvals, map_map.
      exact (PipelineMore.forall2_map_eq _ _ _ _ _ (fun a b Hab => Hab) Hts). }
    rewrite Hmap in Hnd. apply NoDup_map_inv in Hnd.
    rewrite Hp, length_map, PipelineMore.dedup_nodup_id by exact Hnd.
    rewrite <- (Forall2_length Hts). exact Hn.
  - do 2 eexists. split; [cbv; reflexivity|]. repeat split; cbv; reflexivity.
Qed.

Lemma value_ids_sequential_witness :
  exists vals params,
    make_cldf nfc_eval unidecode_eval slug_eval catalog_self source_map_eval
      [record_of "TestLang" [u "p"; u "t(h)"; u "k"] [u "a"; u "(i)"; u "u"]] =
      Some (vals, params) /\
    length vals = 6%nat /\ map v_ID vals = [1; 2; 3; 4; 5; 6]%nat /\
    length params = 6%nat.
Proof.
  do 2 eexists. split; [cbv; reflexivity|].
  eapply (proj1 (proj2 value_ids_sequential) nfc_eval unidecode_eval slug_eval catalog_self
           source_map_eval
           (record_of "TestLang" [u "p"; u "t(h)"; u "k"] [u "a"; u "(i)"; u "u"])).
  - reflexivity.
  - reflexivity.
  - cbv. reflexivity.
  - vm_compute. repeat constructor; cbn; intuition discriminate.
Defined.

(** * Further properties of the code *)

(** Identifier round trip: the string can be read back from [compute_id]:
    the text after the last ['_'] is a sequence of [u]-tokens of
    hexadecimal digits, one per code point, whatever [unidecode] and
    [slug] return. *)
Theorem compute_id_decodes unidecode slug text :
  DecoderFacts.decode_id (compute_id unidecode slug text) = Some text.
Proof.
  unfold DecoderFacts.decode_id, compute_id.
  rewrite DecoderFacts.after_last_app by apply EncoderFacts.unicode_repr_no_underscore.
  apply DecoderFacts.decode_repr_repr.
Qed.

(** Width of a code-point token: ["u{0:0{1}X}".format(c, 4)] has at least
    five characters, and exactly five exactly when [c] is below U+10000;
    a code point beyond the Basic Multilingual Plane gets a longer token. *)
Theorem code_token_width c :
  (5 <= length (code_token c))%nat /\
  (length (code_token c) = 5%nat <-> c < 65536).
Proof.
  unfold code_token. cbn [length]. unfold hex4. rewrite length_app, repeat_length.
  rewrite <- DecoderFacts.hex_upper_short. lia.
Qed.

(** Every item [_splitter] returns is non-empty and has no whitespace left
    at either end ([item.strip()] is a fixed point). *)
Theorem splitter_items_clean text :
  Forall (fun p => nonempty p = true /\ strip p = p) (_splitter text).
Proof.
  apply (Forall_impl _ (fun p H => conj
    (match p as p' return p' <> [] -> nonempty p' = true with
     | [] => fun H0 => False_ind _ (H0 eq_refl) | _ :: _ => fun _ => eq_refl end (proj1 H))
    (proj2 H))).
  apply StripFacts.splitter_clean.
Qed.

(** A line with no [)] is split at every comma: the negative lookahead of
    the splitter only protects a comma that a later [)] closes, so a lone
    [(] protects nothing. *)
Theorem splitter_no_close_paren text :
  ReducerFacts.has RPAR text = false ->
  _splitter text = filter nonempty (map strip (StripFacts.split_on COMMA [] text)).
Proof.
  intros H. rewrite SplitterFacts.splitter_refines. unfold SplitterFacts.splitter_spec.
  rewrite StripFacts.split_at_commas_no_close by exact H. reflexivity.
Qed.

Lemma splitter_no_close_paren_witness :
  ReducerFacts.has RPAR (u "k(h, t") = false /\
  _splitter (u "k(h, t") = [u "k(h"; u "t"].
Proof.
  split; [reflexivity|].
  rewrite (splitter_no_close_paren (u "k(h, t")) by reflexivity. reflexivity.
Defined.

(** Allophone reduction never yields an empty segment and is idempotent:
    reducing a reduced segment again changes nothing. *)
Theorem reduce_segment_idempotent s r :
  reduce_segment s = Some r -> nonempty r = true /\ reduce_segment r = Some r.
Proof.
  intros H. pose proof (ReducerMore.reduce_segment_nonempty s r H) as Hne.
  split; [destruct r; [congruence|reflexivity]|].
  unfold reduce_segment in H. destruct (bounded_by LPAR RPAR s) as [[|]|] eqn:B;
    [injection H as <-; unfold reduce_segment; rewrite B; reflexivity| |discriminate H].
  injection H as <-. unfold reduce_segment.
  pose proof (ReducerFacts.sub_parens_no_span s None ltac:(discriminate)) as Hs.
  fold (sub_parens s) in Hs.
  rewrite (ReducerMore.no_span_not_bounded _ Hs Hne).
  rewrite (ReducerMore.sub_parens_no_span_id _ Hs). reflexivity.
Qed.

Lemma reduce_segment_idempotent_witness :
  reduce_segment (u "t(s)s(h)") = Some (u "ts") /\
  (nonempty (u "ts") = true /\ reduce_segment (u "ts") = Some (u "ts")).
Proof.
  split; [reflexivity|]. apply (reduce_segment_idempotent (u "t(s)s(h)")). reflexivity.
Defined.

(** What [read_raw_source] returns: each metadata field is the last content
    line read under its section ([None] when there is none), and the
    consonants (vowels) are the splitter items of every content line read
    under a [Consonant Inventory] ([Vowel Inventory]) section, in order,
    across all such sections.  A content line is a line, cleaned of BOMs
    and surrounding whitespace, that is neither empty nor a header; a
    header [#...] opens the section named by [line[1:-1].strip()]. *)
Theorem read_raw_source_sections lines :
  read_raw_source lines =
  {| source := ParserFacts.last_or None
       (ParserFacts.lines_of "Reference" (ParserFacts.tagged None lines));
     language_name := ParserFacts.last_or None
       (ParserFacts.lines_of "Language" (ParserFacts.tagged None lines));
     iso_code := ParserFacts.last_or None
       (ParserFacts.lines_of "ISO Code" (ParserFacts.tagged None lines));
     consonants := concat (map _splitter
       (ParserFacts.lines_of "Consonant Inventory" (ParserFacts.tagged None lines)));
     vowels := concat (map _splitter
       (ParserFacts.lines_of "Vowel Inventory" (ParserFacts.tagged None lines))) |}.
Proof. unfold read_raw_source. apply ParserFacts.fold_read. Qed.

(** Blank lines and BOMs are ignored: a line that is empty once BOMs and
    surrounding whitespace are removed changes nothing wherever it stands,
    and removing every U+FEFF from every line changes nothing. *)
Theorem read_raw_source_ignores_blank_and_bom :
  (forall l1 b l2, clean_line b = [] ->
     read_raw_source (l1 ++ b :: l2) = read_raw_source (l1 ++ l2)) /\
  (forall lines, read_raw_source (map ParserFacts.remove_bom lines) = read_raw_source lines).
Proof.
  split.
  - intros l1 b l2 Hb. unfold read_raw_source. rewrite !fold_left_app.
    cbn [fold_left]. rewrite ParserFacts.read_line_blank by exact Hb. reflexivity.
  - intros lines. unfold read_raw_source. f_equal.
    generalize (@None str, empty_record) as st.
    induction lines as [|l lines IH]; intros st; [reflexivity|].
    cbn [map fold_left]. rewrite IH. f_equal. destruct st as [sec d].
    unfold read_line. rewrite ParserFacts.clean_line_remove_bom. reflexivity.
Qed.

Lemma read_raw_source_ignores_blank_and_bom_witness :
  clean_line [BOM; 32; 13; 10] = [] /\
  read_raw_source [u "#Language#"; [BOM; 32; 13; 10]; u "TestLang"] =
    read_raw_source [u "#Language#"; u "TestLang"].
Proof.
  split; [reflexivity|].
  apply (proj1 read_raw_source_ignores_blank_and_bom [u "#Language#"] [BOM; 32; 13; 10]
           [u "TestLang"]).
  reflexivity.
Defined.

(** Lines under an unknown section are dropped.  A header opens the section
    [line[1:-1].strip()], which drops the last character whatever it is; if
    that name is none of the five the parser knows, the header and the
    lines after it, up to the next header, leave the record unchanged.  So
    a header written without a closing character, such as ["#Language"],
    opens the section ["Languag"] and its lines are lost. *)
Theorem read_raw_source_unknown_section pre h r body :
  clean_line h = HASH :: r ->
  ParserFacts.known_section (strip (slice_inner (HASH :: r))) = false ->
  Forall (fun l => hd 0 (clean_line l) <> HASH) body ->
  read_raw_source (pre ++ h :: body) = read_raw_source pre.
Proof.
  intros Hh Hk Hb. unfold read_raw_source. rewrite fold_left_app.
  destruct (fold_left read_line pre (None, empty_record)) as [sec d].
  cbn [fold_left]. unfold read_line at 2. rewrite Hh, N.eqb_refl.
  rewrite (ParserFacts.read_unknown_section _ d body Hk Hb). reflexivity.
Qed.

Lemma read_raw_source_unknown_section_witness :
  read_raw_source [u "#Language"; u "TestLang"] = empty_record /\
  read_raw_source ([] ++ u "#Language" :: [u "TestLang"]) = read_raw_source [].
Proof.
  split; [reflexivity|].
  apply (read_raw_source_unknown_section [] (u "#Language") (u "Language") [u "TestLang"]).
  - reflexivity.
  - reflexivity.
  - constructor; [|constructor]. vm_compute. discriminate.
Defined.

(** Every consonant and vowel [read_raw_source] returns is non-empty and
    trimmed, so the allophone reducer never raises on a parsed record and
    yields non-empty segments. *)
Theorem read_raw_source_items_clean lines :
  Forall (fun p => nonempty p = true /\ strip p = p)
    (consonants (read_raw_source lines) ++ vowels (read_raw_source lines)) /\
  exists segs,
    reduce_all (consonants (read_raw_source lines) ++ vowels (read_raw_source lines)) =
      Some segs /\
    Forall (fun s => nonempty s = true) segs.
Proof.
  assert (Hc : forall ls : list str,
    Forall (fun p => nonempty p = true /\ strip p = p) (concat (map _splitter ls))).
  { induction ls as [|l ls IH]; [constructor|].
    cbn [map concat]. apply Forall_app. split; [apply splitter_items_clean|exact IH]. }
  assert (Hall : Forall (fun p => nonempty p = true /\ strip p = p)
    (consonants (read_raw_source lines) ++ vowels (read_raw_source lines))).
  { rewrite read_raw_source_sections. cbn [consonants vowels].
    apply Forall_app. split; apply Hc. }
  split; [exact Hall|].
  revert Hall. generalize (consonants (read_raw_source lines) ++ vowels (read_raw_source lines)).
  intros l Hl. induction Hl as [|s l [Hs _] Hl IH]; [exists []; split; constructor|].
  destruct IH as [segs [E Hsegs]].
  destruct s as [|c t]; [discriminate Hs|].
  destruct (reduce_segment (c :: t)) as [r|] eqn:Er;
    [|unfold reduce_segment, bounded_by in Er;
      destruct ((c =? LPAR) && (last_char (c :: t) =? RPAR)); discriminate Er].
  exists (r :: segs). cbn [reduce_all]. rewrite Er, E. split; [reflexivity|].
  constructor; [|exact Hsegs]. apply (reduce_segment_idempotent _ _ Er).
Qed.

(** When a run fails: [cmd_makecldf] raises exactly when some record has a
    segment that is empty, whose reduction normalizes to nothing (its NFC
    form is empty or ["()"]), or whose record has no language name or a
    language name whose slug [source_map] lacks.  The catalog and
    [unidecode] never make it fail, and a record without segments never
    does, even without a language name. *)
Theorem make_cldf_fails_iff nfc unidecode slug cat source_map records :
  make_cldf nfc unidecode slug cat source_map records = None <->
  Exists (fun r => Exists (fun s =>
      match reduce_segment s with
      | None => True
      | Some seg =>
          normalize_grapheme nfc seg = None \/
          match language_name r with
          | None => True
          | Some name => source_map (slug name) = None
          end
      end) (consonants r ++ vowels r)) records.
Proof.
  unfold make_cldf.
  assert (E : fold_opt (process_record nfc unidecode slug cat source_map) init_state records
              = None <->
    Exists (fun r => Exists (PipelineMore.segment_fails nfc slug source_map (language_name r))
              (consonants r ++ vowels r)) records).
  { apply PipelineMore.fold_opt_none. intros st r.
    apply PipelineMore.process_record_none. }
  destruct (fold_opt (process_record nfc unidecode slug cat source_map) init_state records);
    [split; [discriminate|intros H; apply E in H; discriminate H]|].
  split; [intros _; apply E; reflexivity|reflexivity].
Qed.

(** Value rows and parameter rows refer to each other: every value row's
    [Parameter_ID] is the [ID] of a parameter row whose [Name] is the
    normalization of the row's value, and every parameter row is the one
    of some value row in this way. *)
Theorem make_cldf_parameter_ids_match nfc unidecode slug cat source_map records vals params :
  make_cldf nfc unidecode slug cat source_map records = Some (vals, params) ->
  (forall v, In v vals -> exists p, In p params /\ p_ID p = v_Parameter_ID v /\
     normalize_grapheme nfc (v_Value v) = Some (p_Name p)) /\
  (forall p, In p params -> exists v, In v vals /\ v_Parameter_ID v = p_ID p /\
     normalize_grapheme nfc (v_Value v) = Some (p_Name p)).
Proof.
  unfold make_cldf.
  destruct (fold_opt (process_record nfc unidecode slug cat source_map) init_state records)
    as [st|] eqn:E; [|discriminate].
  intros H. injection H as <- <-.
  pose proof (PipelineMore.fold_records_aligned nfc unidecode slug cat source_map records
                init_state st E (Forall2_nil _)) as Ha.
  unfold PipelineMore.aligned in Ha. split.
  - intros v Hv. destruct (PipelineMore.forall2_in_l _ _ _ _ Ha Hv) as [t [Ht [Hid [s Hr]]]].
    exists (param_row_of t). split; [apply in_map, PipelineMore.dedup_iff, Ht|].
    split; [symmetry; exact Hid|]. exact (PipelineMore.resolve_normalized _ _ _ _ _ _ _ Hr).
  - intros p Hp. apply in_map_iff in Hp as [t [<- Ht]]. rewrite PipelineMore.dedup_iff in Ht.
    destruct (PipelineMore.forall2_in_r _ _ _ _ Ha Ht) as [v [Hv [Hid [s Hr]]]].
    exists v. split; [exact Hv|]. split; [exact Hid|].
    exact (PipelineMore.resolve_normalized _ _ _ _ _ _ _ Hr).
Qed.

Lemma make_cldf_parameter_ids_match_witness :
  exists vals params,
    make_cldf nfc_eval unidecode_eval slug_eval catalog_self source_map_eval
      [record_of "TestLang" [u "p"; u "t"; u "p"] [u "a"]] = Some (vals, params) /\
    ((forall v, In v vals -> exists p, In p params /\ p_ID p = v_Parameter_ID v /\
        normalize_grapheme nfc_eval (v_Value v) = Some (p_Name p)) /\
     (forall p, In p params -> exists v, In v vals /\ v_Parameter_ID v = p_ID p /\
        normalize_grapheme nfc_eval (v_Value v) = Some (p_Name p))).
Proof.
  do 2 eexists. split; [cbv; reflexivity|].
  eapply (make_cldf_parameter_ids_match nfc_eval unidecode_eval slug_eval catalog_self
           source_map_eval [record_of "TestLang" [u "p"; u "t"; u "p"] [u "a"]]).
  vm_compute. reflexivity.
Defined.

(** The parameter table has no two equal rows ([set(segments)] keeps each
    distinct tuple once), though two rows may share an [ID]. *)
Theorem make_cldf_parameter_rows_distinct nfc unidecode slug cat source_map records
  vals params :
  make_cldf nfc unidecode slug cat source_map records = Some (vals, params) ->
  NoDup params.
Proof.
  unfold make_cldf.
  destruct (fold_opt (process_record nfc unidecode slug cat source_map) init_state records);
    [|discriminate].
  intros H. injection H as _ <-.
  apply PipelineMore.nodup_map_inj; [apply PipelineMore.param_row_of_inj|].
  apply PipelineMore.dedup_nodup.
Qed.

Lemma make_cldf_parameter_rows_distinct_witness :
  exists vals params,
    make_cldf nfc_eval unidecode_eval slug_eval catalog_marked source_map_eval
      [record_of "TestLang" [u "p"; u "(p)"; u "p"] []] = Some (vals, params) /\
    map p_ID params = [u "BIPA_p_u0070"; u "BIPA_p_u0070"] /\
    NoDup params.
Proof.
  do 2 eexists. split; [cbv; reflexivity|]. split; [cbv; reflexivity|].
  eapply (make_cldf_parameter_rows_distinct nfc_eval unidecode_eval slug_eval catalog_marked
           source_map_eval [record_of "TestLang" [u "p"; u "(p)"; u "p"] []]).
  vm_compute. reflexivity.
Defined.

(** The fixed fields of the value rows: every row has [Marginal] false and
    [Catalog] ["jipa"], its [Contribution_ID] equals its [Language_ID], which
    is the slug of the language name of one of the records, and its
    [Source] is the one-element list of [source_map] at that slug. *)
Theorem make_cldf_value_row_fields nfc unidecode slug cat source_map records vals params :
  make_cldf nfc unidecode slug cat source_map records = Some (vals, params) ->
  forall v, In v vals ->
    v_Marginal v = false /\ v_Catalog v = u "jipa" /\
    v_Contribution_ID v = v_Language_ID v /\
    exists r name src, In r records /\ language_name r = Some name /\
      v_Language_ID v = slug name /\ source_map (slug name) = Some src /\
      v_Source v = [src].
Proof.
  unfold make_cldf.
  destruct (fold_opt (process_record nfc unidecode slug cat source_map) init_state records)
    as [st|] eqn:E; [|discriminate].
  intros H. injection H as <- _. intros v Hv.
  destruct (PipelineMore.fold_records_fields nfc unidecode slug cat source_map records
              init_state st E v Hv) as [[]|[r [Hr [H1 [H2 [H3 [name [src [H4 [H5 [H6 H7]]]]]]]]]]].
  repeat split; try assumption. exists r, name, src. auto.
Qed.

Lemma make_cldf_value_row_fields_witness :
  exists vals params,
    make_cldf nfc_eval unidecode_eval slug_eval catalog_self source_map_eval
      [record_of "TestLang" [u "p"] []] = Some (vals, params) /\
    forall v, In v vals ->
      v_Marginal v = false /\ v_Catalog v = u "jipa" /\
      v_Contribution_ID v = v_Language_ID v /\
      exists r name src, In r [record_of "TestLang" [u "p"] []] /\
        language_name r = Some name /\
        v_Language_ID v = slug_eval name /\ source_map_eval (slug_eval name) = Some src /\
        v_Source v = [src].
Proof.
  do 2 eexists. split; [cbv; reflexivity|].
  eapply (make_cldf_value_row_fields nfc_eval unidecode_eval slug_eval catalog_self
           source_map_eval [record_of "TestLang" [u "p"] []]).
  vm_compute. reflexivity.
Defined.

(** [source_map]: the dict comprehension fails (KeyError) exactly when some
    language row has no [ID] or no [Source] column; otherwise the entry of a
    key is the [Source] of the last row with that [ID], and there is no
    entry when no row has it. *)
Theorem source_map_of_last_row rows :
  (source_map_of rows = None <->
   Exists (fun r => dict_get str_eqb r (u "ID") = None \/
                    dict_get str_eqb r (u "Source") = None) rows) /\
  (forall sm k, source_map_of rows = Some sm ->
     dict_get cell_eqb sm k = LanguageFacts.last_source None k rows).
Proof.
  split; [apply LanguageFacts.build_source_map_none|].
  intros sm k H. exact (LanguageFacts.build_source_map_get [] rows sm k H).
Qed.


Lemma source_map_of_last_row_witness :
  exists sm, source_map_of languages_eval = Some sm /\
    dict_get cell_eqb sm (Some (u "testlang")) = Some (Some (u "B2010")).
Proof.
  eexists. split; [cbv; reflexivity|].
  rewrite (proj2 (source_map_of_last_row languages_eval) _ (Some (u "testlang")))
    by (vm_compute; reflexivity).
  vm_compute. reflexivity.
Defined.

(** The Glottolog enrichment keeps the table: [languages] has one row per
    row of [languages.csv], in order; each keeps the value of every column
    other than the six it adds ([Family_Glottocode], [Family_Name],
    [Latitude], [Longitude], [Macroarea], [Glottolog_Name]), its
    [Glottocode] included; so [source_map] is the same whatever Glottolog
    returns. *)
Theorem load_languages_keeps_columns glottolog rows langs :
  load_languages glottolog rows = Some langs ->
  length langs = length rows /\
  Forall2 (fun r r' => forall k, ~ In k LanguageFacts.added_columns ->
             dict_get str_eqb r' k = dict_get str_eqb r k) rows langs /\
  source_map_of langs = source_map_of rows.
Proof.
  intros H. pose proof (LanguageFacts.load_languages_keeps glottolog rows langs H) as HF.
  split; [symmetry; exact (Forall2_length HF)|]. split; [exact HF|].
  apply LanguageFacts.build_source_map_same.
  destruct LanguageFacts.id_source_not_added as [Hi Hs].
  clear H. induction HF as [|r r' rows langs Hk HF IH]; constructor; [|exact IH].
  split; apply Hk; assumption.
Qed.


Lemma load_languages_keeps_columns_witness :
  exists langs,
    load_languages glottolog_eval enriched_rows_eval = Some langs /\
    (length langs = length enriched_rows_eval /\
     Forall2 (fun r r' => forall k, ~ In k LanguageFacts.added_columns ->
                dict_get str_eqb r' k = dict_get str_eqb r k) enriched_rows_eval langs /\
     source_map_of langs = source_map_of enriched_rows_eval).
Proof.
  eexists. split; [cbv; reflexivity|].
  eapply (load_languages_keeps_columns glottolog_eval enriched_rows_eval).
  vm_compute. reflexivity.
Defined.
